(** * andreich/audio: the chunked streaming protocol and its rollover logic

    A shallow embedding of [client/recorder/recorder.go] (the stream chunker
    [R]) and of [server/server.go] (the recording sink [server.Record] with
    [newRecording]), together with the wire message of [recorder.proto].

    The gRPC transport, the sound-file library and the clock are external to
    the repository: each is modelled as a store that records every call made
    on it, with the result of every call drawn from an oracle (a record of
    functions), so that any pattern of failures can be replayed.  Output of
    [log.Printf] is not part of the model. *)

From Stdlib Require Import ZArith List Bool Lia String DecimalString DecimalPos.
From Stdlib Require Import Floats.SpecFloat.
From stdpp Require Import base tactics option list numbers sorting.
Import ListNotations.

Local Open Scope Z_scope.

(** ** Machine integers *)

(** Go's [int64] and [int32] as [Z], two's complement wrap-around written
    out. *)
Definition wrap (bits : Z) (z : Z) : Z :=
  (z + 2 ^ (bits - 1)) mod 2 ^ bits - 2 ^ (bits - 1).

Definition wrap64 : Z -> Z := wrap 64.

Definition min_int64 : Z := - 2 ^ 63.
Definition max_int64 : Z := 2 ^ 63 - 1.
Definition min_int32 : Z := - 2 ^ 31.
Definition max_int32 : Z := 2 ^ 31 - 1.

(** ** IEEE 754 binary32, Go's [float32] *)

Module Float32.

Definition prec : Z := 24.
Definition emax : Z := 128.

Definition t : Type := spec_float.

(** [float32(n)] for an integer [n]: round to nearest, ties to even. *)
Definition of_int (n : Z) : t := binary_normalize prec emax n 0 false.

Definition mul (x y : t) : t := SFmul prec emax x y.
Definition div (x y : t) : t := SFdiv prec emax x y.

(** The integer part of a finite value (rounding toward zero); [None] for
    infinities and NaN. *)
Definition trunc (x : t) : option Z :=
  match x with
  | S754_zero _ => Some 0
  | S754_finite s m e =>
      Some (cond_Zopp s (match e with
                         | Z0 => Zpos m
                         | Zpos _ => Z.shiftl (Zpos m) e
                         | Zneg _ => Z.shiftr (Zpos m) (- e)
                         end))
  | S754_infinity _ | S754_nan => None
  end.

(** [int64(x)] and [int32(x)].  Go truncates toward zero; when the value
    does not fit (or is NaN) the result is implementation-defined, and the
    amd64 result, the smallest integer of the type, is used here. *)
Definition to_int64 (x : t) : Z :=
  match trunc x with
  | Some z => if (min_int64 <=? z) && (z <=? max_int64) then z else min_int64
  | None => min_int64
  end.

Definition to_int32 (x : t) : Z :=
  match trunc x with
  | Some z => if (min_int32 <=? z) && (z <=? max_int32) then z else min_int32
  | None => min_int32
  end.

End Float32.

Abbreviation float32 := Float32.t.

(** ** Wire messages ([recorder.proto]) *)

Record RecordRequest_Header : Type := {
  NumChannels : Z;
  SampleRate : float32
}.

Record RecordRequest : Type := {
  Header : option RecordRequest_Header;
  Sample : list float32
}.

(** The generated getters, safe on a missing header. *)
Definition GetNumChannels (h : option RecordRequest_Header) : Z :=
  match h with Some x => NumChannels x | None => 0 end.

Definition GetSampleRate (h : option RecordRequest_Header) : float32 :=
  match h with Some x => SampleRate x | None => S754_zero false end.

Definition GetHeader (m : RecordRequest) : option RecordRequest_Header := Header m.
Definition GetSample (m : RecordRequest) : list float32 := Sample m.

(** Go's [error] values: what failed, and on which call. *)
Variant error : Type :=
  | ErrRecord (call : nat)
  | ErrSend (stream call : nat)
  | ErrCloseSend (stream call : nat)
  | ErrOpen (call : nat)
  | ErrWriteFrames (file call : nat)
  | ErrClose (file call : nat).

(** [time.Second] in [time.Duration] units (nanoseconds). *)
Definition Second : Z := 1000000000.

(** ** The client: [recorder.R] *)

Module recorder.

(** One transport stream as the client sees it: every [Send] made on it,
    in order, with what the call returned, and what each [CloseSend]
    returned. *)
Record ClientStream : Type := {
  sends : list (RecordRequest * option error);
  closeSends : list (option error)
}.

(** The messages that went through: those whose [Send] returned nil. *)
Definition delivered (s : ClientStream) : list RecordRequest :=
  (filter (fun c => c.2 = None) (sends s)).*1.

(** Every message handed to [Send], delivered or not. *)
Definition attempted (s : ClientStream) : list RecordRequest := (sends s).*1.

(** The transport: how many times [client.Record] was called, and the
    streams it opened, in the order they were opened; a stream is named by
    its position. *)
Record Net : Type := {
  idx : nat;
  streams : list ClientStream
}.

Definition net0 : Net := {| idx := 0; streams := [] |}.

(** The results of the transport's calls: [record_err n] for the [n]-th
    call of [client.Record], [send_err id k] for the [k]-th [Send] on
    stream [id], [closeSend_err id k] for its [k]-th [CloseSend]. *)
Record Transport : Type := {
  record_err : nat -> option error;
  send_err : nat -> nat -> option error;
  closeSend_err : nat -> nat -> option error
}.

Record R : Type := {
  currentStream : option nat;
  currentFrames : Z;
  numChannels : Z;
  sampleRate : float32;
  maxLength : Z
}.

Definition New (maxLength : Z) (numChannels : Z) (sampleRate : float32) : R :=
  {| currentStream := None;
     currentFrames := 0;
     numChannels := numChannels;
     sampleRate := sampleRate;
     maxLength := maxLength |}.

Definition set_currentFrames (f : Z) (r : R) : R :=
  {| currentStream := currentStream r;
     currentFrames := f;
     numChannels := numChannels r;
     sampleRate := sampleRate r;
     maxLength := maxLength r |}.

Definition set_currentStream (s : option nat) (r : R) : R :=
  {| currentStream := s;
     currentFrames := currentFrames r;
     numChannels := numChannels r;
     sampleRate := sampleRate r;
     maxLength := maxLength r |}.

Section WithTransport.

Variable T : Transport.

(** [client.Record(ctx)]: a new stream, or nil and an error (what the
    generated gRPC stub and the test's [fakeClient] both return). *)
Definition Record (w : Net) : (option nat * option error) * Net :=
  match record_err T (idx w) with
  | Some e => ((None, Some e), {| idx := S (idx w); streams := streams w |})
  | None =>
      ((Some (length (streams w)), None),
       {| idx := S (idx w);
          streams := streams w ++ [ {| sends := []; closeSends := [] |} ] |})
  end.

(** [stream.Send(req)]: the stream gets a copy of the message.  A name
    that [Record] never returned cannot reach [Send] or [CloseSend]; the
    [None] branches below are never taken. *)
Definition Send (id : nat) (req : RecordRequest) (w : Net) : option error * Net :=
  match streams w !! id with
  | Some s =>
      let e := send_err T id (length (sends s)) in
      (e, {| idx := idx w;
             streams := <[ id := {| sends := sends s ++ [(req, e)];
                                    closeSends := closeSends s |} ]> (streams w) |})
  | None => (None, w)
  end.

Definition CloseSend (id : nat) (w : Net) : option error * Net :=
  match streams w !! id with
  | Some s =>
      let e := closeSend_err T id (length (closeSends s)) in
      (e, {| idx := idx w;
             streams := <[ id := {| sends := sends s;
                                    closeSends := closeSends s ++ [e] |} ]> (streams w) |})
  | None => (None, w)
  end.

Definition closeCurrentStream (r : R) (w : Net) : option error * R * Net :=
  let r := set_currentFrames 0 r in
  match currentStream r with
  | None => (None, r, w)
  | Some id => let '(e, w) := CloseSend id w in (e, r, w)
  end.

Definition Close (r : R) (w : Net) : option error * R * Net :=
  closeCurrentStream r w.

Definition header_request (r : R) : RecordRequest :=
  {| Header := Some {| NumChannels := numChannels r; SampleRate := sampleRate r |};
     Sample := [] |}.

Definition testAndCloseStream (d : Z) (r : R) (w : Net) : option error * R * Net :=
  if bool_decide (currentStream r <> None) && (d <=? maxLength r) then (None, r, w)
  else
    let '(_, r, w) := closeCurrentStream r w in
    let '((s, err), w) := Record w in
    let r := set_currentStream s r in
    match err with
    | Some e => (Some e, r, w)
    | None =>
        match s with
        | Some id => let '(e, w) := Send id (header_request r) w in (e, r, w)
        | None => (None, r, w)
        end
    end.

(** [time.Duration(float32(frames)/div) * time.Second]. *)
Definition duration (div : float32) (frames : Z) : Z :=
  wrap64 (Float32.to_int64 (Float32.div (Float32.of_int frames) div) * Second).

(** [d] as the callback computes it for a buffer of [lin] samples. *)
Definition projected (div : float32) (r : R) (lin : Z) : Z :=
  duration div (wrap64 (currentFrames r + lin)).

Definition sample_request (buf : list float32) : RecordRequest :=
  {| Header := None; Sample := buf |}.

(** [r.sampleRate * float32(r.numChannels)] *)
Definition div_of (r : R) : float32 :=
  Float32.mul (sampleRate r) (Float32.of_int (numChannels r)).

(** The callback that [Process] returns; [div] is computed once, when
    [Process] is called.  [testAndCloseStream] returns nil only with a
    stream in place, so the last [None] branch is never taken. *)
Definition Process (r0 : R) : list float32 -> R * Net -> R * Net :=
  let div := div_of r0 in
  fun buf '(r, w) =>
    let lin := Z.of_nat (length buf) in
    let d := projected div r lin in
    match testAndCloseStream d r w with
    | (Some _, r, w) => (r, w)
    | (None, r, w) =>
        let r := set_currentFrames (wrap64 (currentFrames r + lin)) r in
        match currentStream r with
        | Some id => let '(_, w) := Send id (sample_request buf) w in (r, w)
        | None => (r, w)
        end
    end.

(** The capture source calling the callback once per buffer, in order. *)
Definition feed (cb : list float32 -> R * Net -> R * Net)
    (bufs : list (list float32)) (st : R * Net) : R * Net :=
  fold_left (fun st buf => cb buf st) bufs st.

End WithTransport.

(** *** What an observer of the transport sees *)

(** The number of streams the chunker opened. *)
Definition opened (w : Net) : nat := length (streams w).

(** The samples of the messages without a header, in order. *)
Definition sample_payload (msgs : list RecordRequest) : list float32 :=
  concat (Sample <$> filter (fun m => Header m = None) msgs).

(** The samples that went through, over all streams in the order the streams
    were opened. *)
Definition payload (w : Net) : list float32 :=
  sample_payload (concat (delivered <$> streams w)).

(** The messages that went through, stream by stream. *)
Definition carried (w : Net) : list (list RecordRequest) := delivered <$> streams w.

(** A transport on which every stream open and every send succeeds. *)
Definition reliable (T : Transport) : Prop :=
  (forall n, record_err T n = None) /\ (forall id k, send_err T id k = None).

(** The transport of the test: nothing fails. *)
Definition no_failure : Transport :=
  {| record_err := fun _ => None;
     send_err := fun _ _ => None;
     closeSend_err := fun _ _ => None |}.

(** [msgs] is the message [h] followed by messages without a header. *)
Definition header_first (h : RecordRequest) (msgs : list RecordRequest) : Prop :=
  exists rest, msgs = h :: rest /\ Forall (fun m => Header m = None) rest.

(** The chunker names the stream opened last, or none. *)
Definition current_is_last (r : R) (w : Net) : Prop :=
  match currentStream r with
  | Some id => S id = length (streams w)
  | None => True
  end.

Definition same_config (r r' : R) : Prop :=
  numChannels r = numChannels r' /\ sampleRate r = sampleRate r' /\
  maxLength r = maxLength r'.

(** Every stream starts with the send of the header, whose result is the
    transport's answer to the first [Send] on it, and no later message has a
    header. *)
Definition headed (T : Transport) (h : RecordRequest) (l : list ClientStream) : Prop :=
  forall id s, l !! id = Some s ->
    exists rs, sends s = (h, send_err T id 0) :: rs /\
               Forall (fun c => Header c.1 = None) rs.

(** [ceil(a / b)] for [b > 0]. *)
Definition ceil_div (a b : Z) : Z := (a + b - 1) / b.

(** The rotation count as the specification words it: [n] buffers of [len]
    samples, each covering [d] nanoseconds at [rate] Hz over [ch] channels,
    with [maxLength = M] not a multiple of [d], open [ceil(n * d / M)]
    streams. *)
Definition rotation_count_by_duration
    (T : Transport) (M ch rate : Z) (len n : nat) (d : Z) : Prop :=
  reliable T ->
  d * (rate * ch) = Z.of_nat len * Second ->
  M mod d <> 0 ->
  forall bufs, length bufs = n -> Forall (fun b => length b = len) bufs ->
    let r0 := New M ch (Float32.of_int rate) in
    Z.of_nat (opened (feed (Process T r0) bufs (r0, net0)).2) = ceil_div (Z.of_nat n * d) M.

(** The boundary rule as the specification words it, on the exact projected
    duration: with a stream open, at [rate] Hz over [ch] channels, a buffer
    that brings the samples of the stream to exactly [maxLength] (in
    nanoseconds: [samples * 10^9 = maxLength * rate * ch]) is sent without
    a call of [client.Record]. *)
Definition boundary_rule_by_exact_duration
    (T : Transport) (rate ch : Z) (r : R) (w : Net) (buf : list float32) : Prop :=
  sampleRate r = Float32.of_int rate ->
  numChannels r = ch ->
  0 < rate * ch ->
  currentStream r <> None ->
  (currentFrames r + Z.of_nat (length buf)) * Second = maxLength r * (rate * ch) ->
  idx (Process T r buf (r, w)).2 = idx w.

(** Idempotent close as the specification words it: a second [Close]
    returns nil and leaves the transport as the first one left it. *)
Definition second_Close_is_noop (T : Transport) (r : R) (w : Net) : Prop :=
  let '(_, r1, w1) := Close T r w in
  let '(e2, _, w2) := Close T r1 w1 in
  e2 = None /\ w2 = w1.

(** A transport on which the first [Send] on stream 0, the header, fails and
    everything else succeeds. *)
Definition header_lost : Transport :=
  {| record_err := fun _ => None;
     send_err := fun id k => match id, k with
                             | O, O => Some (ErrSend 0 0)
                             | _, _ => None
                             end;
     closeSend_err := fun _ _ => None |}.

(** A transport on which the first [client.Record] fails and everything else
    succeeds. *)
Definition open_refused : Transport :=
  {| record_err := fun n => match n with O => Some (ErrRecord 0) | _ => None end;
     send_err := fun _ _ => None;
     closeSend_err := fun _ _ => None |}.

(** Where the chunker stands after [n] buffers of [len] samples each, when
    [k] of them fill a stream: nothing open before the first buffer; then
    [q] full streams behind it and [j] buffers on the current one. *)
Definition chunk_state (r0 : R) (k : nat) (len : Z) (n : nat) (st : R * Net) : Prop :=
  same_config st.1 r0 /\
  match n with
  | O => currentStream st.1 = None /\ streams st.2 = []
  | S _ =>
      exists q j : nat,
        (1 <= j <= k)%nat /\ n = (q * k + j)%nat /\
        length (streams st.2) = S q /\
        currentStream st.1 = Some q /\
        currentFrames st.1 = Z.of_nat j * len
  end.

End recorder.

(** ** The server: [server.Record] and [newRecording] *)

Module server.

(** [sndfile.Info] *)
Record Info : Type := {
  Channels : Z;
  Samplerate : Z;
  Format : Z
}.

Definition SF_FORMAT_WAV : Z := 0x010000.
Definition SF_FORMAT_PCM_16 : Z := 0x0002.

(** An output file of the sound-file library: the name and configuration it
    was opened with, every [WriteFrames] made on it with its result, and
    what each [Close] returned. *)
Record File : Type := {
  path : string;
  info : Info;
  writes : list (list float32 * option error);
  closes : list (option error)
}.

(** The frames in the file: the blocks whose write returned nil. *)
Definition frames (f : File) : list float32 :=
  concat (filter (fun c => c.2 = None) (writes f)).*1.

(** The library's store: every call of [sndfile.Open] with its result, and
    the files created (an [Open] that returned nil), named by position. *)
Record Disk : Type := {
  opens : list (string * Info * option error);
  files : list File
}.

Definition disk0 : Disk := {| opens := []; files := [] |}.

(** The results of the external calls: [open_err n name info] for the
    [n]-th [sndfile.Open], [write_err f k] for the [k]-th [WriteFrames] on
    file [f], [close_err f k] for its [k]-th [Close], and [timestamp n] for
    [time.Now().Format("2006-01-02-15-04-05")] at the [n]-th [Open]. *)
Record Sndfile : Type := {
  open_err : nat -> string -> Info -> option error;
  write_err : nat -> nat -> option error;
  close_err : nat -> nat -> option error;
  timestamp : nat -> string
}.

(** [server]; [numClients] is a Go [int], 64 bits wide. *)
Record t : Type := {
  prefix : string;
  numClients : Z
}.

(** [%03d]: decimal, zero-padded to three characters, the sign included. *)
Definition pad0 (width : nat) (digits : string) : string :=
  String.concat EmptyString (repeat "0"%string (width - String.length digits)) ++ digits.

Definition fmt_03d (n : Z) : string :=
  match n with
  | Z0 => "000"
  | Zpos p => pad0 3 (NilZero.string_of_uint (Pos.to_uint p))
  | Zneg p => "-" ++ pad0 2 (NilZero.string_of_uint (Pos.to_uint p))
  end.

(** [fmt.Sprintf("%s-%s-%03d.wav", prefix, stamp, n)] *)
Definition file_name (prefix stamp : string) (n : Z) : string :=
  prefix ++ "-" ++ stamp ++ "-" ++ fmt_03d n ++ ".wav".

Section WithSndfile.

Variable L : Sndfile.

Definition Open (name : string) (i : Info) (d : Disk) : (option nat * option error) * Disk :=
  match open_err L (length (opens d)) name i with
  | Some e => ((None, Some e), {| opens := opens d ++ [(name, i, Some e)]; files := files d |})
  | None =>
      ((Some (length (files d)), None),
       {| opens := opens d ++ [(name, i, None)];
          files := files d ++ [ {| path := name; info := i; writes := []; closes := [] |} ] |})
  end.

Definition WriteFrames (f : nat) (block : list float32) (d : Disk) : option error * Disk :=
  match files d !! f with
  | Some x =>
      let e := write_err L f (length (writes x)) in
      (e, {| opens := opens d;
             files := <[ f := {| path := path x; info := info x;
                                 writes := writes x ++ [(block, e)];
                                 closes := closes x |} ]> (files d) |})
  | None => (None, d)
  end.

Definition FileClose (f : nat) (d : Disk) : option error * Disk :=
  match files d !! f with
  | Some x =>
      let e := close_err L f (length (closes x)) in
      (e, {| opens := opens d;
             files := <[ f := {| path := path x; info := info x;
                                 writes := writes x;
                                 closes := closes x ++ [e] |} ]> (files d) |})
  | None => (None, d)
  end.

Definition newRecording (numChannels sampleRate : Z) (s : t) (d : Disk)
    : (option nat * option error) * t * Disk :=
  let i := {| Channels := numChannels;
              Samplerate := sampleRate;
              Format := Z.lor SF_FORMAT_WAV SF_FORMAT_PCM_16 |} in
  let '(res, d) :=
    Open (file_name (prefix s) (timestamp L (length (opens d))) (numClients s)) i d in
  (res, {| prefix := prefix s; numClients := wrap64 (numClients s + 1) |}, d).

(** The receive loop of [Record] over the messages that [srv.Recv]
    yields before it returns an error (end of stream or a transport
    failure).  The result carries [out] as the loop leaves it, for the
    deferred call.  [newRecording] returns a file or an error, so the branch
    with neither is never taken. *)
Fixpoint Record_loop (out : option nat) (msgs : list RecordRequest) (s : t) (d : Disk)
    : option nat * option error * t * Disk :=
  match msgs with
  | [] => (out, None, s, d)
  | m :: rest =>
      let '((out, err), s, d) :=
        match out with
        | None =>
            newRecording (GetNumChannels (GetHeader m))
                         (Float32.to_int32 (GetSampleRate (GetHeader m))) s d
        | Some f => ((Some f, None), s, d)
        end in
      match err with
      | Some e => (None, Some e, s, d)
      | None =>
          match out with
          | None => (None, None, s, d)
          | Some f =>
              if (0 <? length (GetSample m))%nat then
                let '(werr, d) := WriteFrames f (GetSample m) d in
                match werr with
                | Some e => (Some f, Some e, s, d)
                | None => Record_loop (Some f) rest s d
                end
              else Record_loop (Some f) rest s d
          end
      end
  end.

(** [Record]: the loop, then the deferred [out.Close()], whose result is
    not looked at. *)
Definition Record (msgs : list RecordRequest) (s : t) (d : Disk) : option error * t * Disk :=
  let '(out, err, s, d) := Record_loop None msgs s d in
  match out with
  | Some f => let '(_, d) := FileClose f d in (err, s, d)
  | None => (err, s, d)
  end.

(** A run of calls of [newRecording] on one server value, each with its
    channel count and sample rate. *)
Fixpoint newRecordings (calls : list (Z * Z)) (s : t) (d : Disk) : t * Disk :=
  match calls with
  | [] => (s, d)
  | (numChannels, sampleRate) :: rest =>
      let '(_, s, d) := newRecording numChannels sampleRate s d in
      newRecordings rest s d
  end.

End WithSndfile.

(** *** What an observer of the library sees *)

(** The [sndfile.Info] that [Record] builds from the first message. *)
Definition first_info (m : RecordRequest) : Info :=
  {| Channels := GetNumChannels (GetHeader m);
     Samplerate := Float32.to_int32 (GetSampleRate (GetHeader m));
     Format := Z.lor SF_FORMAT_WAV SF_FORMAT_PCM_16 |}.

(** The file name of the next call of [newRecording]. *)
Definition next_name (L : Sndfile) (s : t) (d : Disk) : string :=
  file_name (prefix s) (timestamp L (length (opens d))) (numClients s).

(** The file name of the call of [newRecording] that comes [k] calls after
    the state [(s, d)], and the sequence number in it. *)
Definition seq_number (s : t) (k : nat) : Z := numClients s + Z.of_nat k.

Definition nth_name (L : Sndfile) (s : t) (d : Disk) (k : nat) : string :=
  file_name (prefix s) (timestamp L (length (opens d) + k)) (seq_number s k).

(** The names given to [sndfile.Open], in call order, and the names of the
    files created. *)
Definition opened_names (d : Disk) : list string := (opens d).*1.*1.
Definition created_names (d : Disk) : list string := path <$> files d.

(** The server after one more call of [newRecording]. *)
Definition bump (s : t) : t :=
  {| prefix := prefix s; numClients := wrap64 (numClients s + 1) |}.

(** The server as [main] creates it. *)
Definition server0 : t := {| prefix := "rec"; numClients := 0 |}.

(** A library on which nothing fails. *)
Definition no_failure : Sndfile :=
  {| open_err := fun _ _ _ => None;
     write_err := fun _ _ => None;
     close_err := fun _ _ => None;
     timestamp := fun _ => "2019-03-01-12-00-00"%string |}.

(** A library on which only [Close] fails. *)
Definition close_fails : Sndfile :=
  {| open_err := fun _ _ _ => None;
     write_err := fun _ _ => None;
     close_err := fun f k => Some (ErrClose f k);
     timestamp := fun _ => "2019-03-01-12-00-00"%string |}.

(** The non-empty sample payloads of the messages received, in order. *)
Definition blocks (msgs : list RecordRequest) : list (list float32) :=
  filter (fun b => b <> []) (Sample <$> msgs).

(** File-per-stream as the specification words it: whatever the stream, one
    file is created, holding the non-empty sample blocks received. *)
Definition one_file_always (L : Sndfile) (msgs : list RecordRequest) (s : t) (d : Disk) : Prop :=
  exists f, files (Record L msgs s d).2 = files d ++ [f] /\
            frames f = concat (blocks msgs).

(** A first message the specification calls malformed: no header, or a
    channel count or a sample rate that is not positive. *)
Definition malformed_first (m : RecordRequest) : Prop :=
  match Header m with
  | None => True
  | Some h => NumChannels h <= 0 \/ SFleb (SampleRate h) (S754_zero false) = true
  end.

(** Rejection as the specification words it: an error, and no file. *)
Definition rejected (L : Sndfile) (msgs : list RecordRequest) (s : t) (d : Disk) : Prop :=
  (Record L msgs s d).1.1 <> None /\ files (Record L msgs s d).2 = files d.

(** Close-error propagation as the specification words it: when the file of
    this session was closed with an error, [Record] returns that error. *)
Definition returns_close_error (L : Sndfile) (msgs : list RecordRequest) (s : t) (d : Disk) : Prop :=
  forall x e, files (Record L msgs s d).2 !! length (files d) = Some x ->
              Some e ∈ closes x ->
              (Record L msgs s d).1.1 = Some e.

End server.

(** ** The capture device: [getInputDevice] ([client/client.go]) *)

Module client.

(** What [getInputDevice] can return besides a device: the error of
    [portaudio.Devices], or its own "no input device found". *)
Variant device_error : Type :=
  | ErrDevices (code : nat)
  | ErrNoInputDevice.

(** [strings.Contains(s, substr)] *)
Definition Contains (s substr : string) : bool :=
  match index 0 substr s with
  | Some _ => true
  | None => false
  end.

Section WithDevices.

(** [portaudio.DeviceInfo] is the library's type; the function reads its
    [Name] only. *)
Variable DeviceInfo : Type.
Variable Name : DeviceInfo -> string.

(** The loop over the devices, in the order [portaudio.Devices] lists them;
    [input] is the value of the [-input] flag. *)
Fixpoint getInputDevice_loop (input : string) (devices : list DeviceInfo)
    : DeviceInfo + device_error :=
  match devices with
  | [] => inr ErrNoInputDevice
  | dev :: rest =>
      if negb (input =? EmptyString)%string && Contains (Name dev) input then inl dev
      else getInputDevice_loop input rest
  end.

(** [getInputDevice], given what [portaudio.Devices] returned. *)
Definition getInputDevice (input : string) (devices : list DeviceInfo + nat)
    : DeviceInfo + device_error :=
  match devices with
  | inr code => inr (ErrDevices code)
  | inl devs => getInputDevice_loop input devs
  end.

End WithDevices.

End client.

(** ** The client before chunking: [process] (the source file without a name) *)

Module oldclient.

Import recorder.

Section WithTransport.

Variable T : Transport.




End WithTransport.

End oldclient.

(** ** The chunker step by step *)

Module chunker.

Import recorder.

Definition after_send (s : ClientStream) (req : RecordRequest) (e : option error)
    : ClientStream :=
  {| sends := sends s ++ [(req, e)]; closeSends := closeSends s |}.

Definition after_closeSend (s : ClientStream) (e : option error) : ClientStream :=
  {| sends := sends s; closeSends := closeSends s ++ [e] |}.

Definition fresh (l : list (RecordRequest * option error)) : ClientStream :=
  {| sends := l; closeSends := [] |}.

(** What [closeCurrentStream] does to the streams. *)
Inductive closes_current (T : Transport) (r : R)
    : list ClientStream -> list ClientStream -> Prop :=
  | closes_none l :
      currentStream r = None -> closes_current T r l l
  | closes_last pre s :
      currentStream r = Some (length pre) ->
      closes_current T r (pre ++ [s])
        (pre ++ [after_closeSend s (closeSend_err T (length pre) (length (closeSends s)))]).

(** The four ways through the callback of [Process]: the buffer goes to the
    current stream; or the chunker rotates and the open fails, or the header
    send fails, or both succeed and the buffer follows the header. *)
Inductive callback_step (T : Transport) (r0 : R) (buf : list float32)
    : R * Net -> R * Net -> Prop :=
  | step_keep r n pre s :
      currentStream r = Some (length pre) ->
      projected (div_of r0) r (Z.of_nat (length buf)) <= maxLength r ->
      callback_step T r0 buf
        (r, {| idx := n; streams := pre ++ [s] |})
        (set_currentFrames (wrap64 (currentFrames r + Z.of_nat (length buf))) r,
         {| idx := n;
            streams := pre ++ [after_send s (sample_request buf)
                                 (send_err T (length pre) (length (sends s)))] |})
  | step_open_failed r w l1 e :
      currentStream r = None \/
        maxLength r < projected (div_of r0) r (Z.of_nat (length buf)) ->
      closes_current T r (streams w) l1 ->
      record_err T (idx w) = Some e ->
      callback_step T r0 buf (r, w)
        (set_currentStream None (set_currentFrames 0 r),
         {| idx := S (idx w); streams := l1 |})
  | step_header_failed r w l1 e :
      currentStream r = None \/
        maxLength r < projected (div_of r0) r (Z.of_nat (length buf)) ->
      closes_current T r (streams w) l1 ->
      record_err T (idx w) = None ->
      send_err T (length l1) 0 = Some e ->
      callback_step T r0 buf (r, w)
        (set_currentStream (Some (length l1)) (set_currentFrames 0 r),
         {| idx := S (idx w);
            streams := l1 ++ [fresh [(header_request r, Some e)]] |})
  | step_rotated r w l1 :
      currentStream r = None \/
        maxLength r < projected (div_of r0) r (Z.of_nat (length buf)) ->
      closes_current T r (streams w) l1 ->
      record_err T (idx w) = None ->
      send_err T (length l1) 0 = None ->
      callback_step T r0 buf (r, w)
        (set_currentFrames (wrap64 (Z.of_nat (length buf)))
           (set_currentStream (Some (length l1)) (set_currentFrames 0 r)),
         {| idx := S (idx w);
            streams := l1 ++ [fresh [(header_request r, None);
                                     (sample_request buf, send_err T (length l1) 1)]] |}).

(** The samples handed to [Send] on a stream, delivered or not, and their
    number. *)
Definition samples_sent (s : ClientStream) : Z :=
  Z.of_nat (length (sample_payload (attempted s))).

(** The number of sample messages handed to [Send] on a stream. *)
Definition buffers_sent (s : ClientStream) : nat :=
  length (filter (fun m => Header m = None) (attempted s)).

(** The samples handed to [Send], over all streams in the order opened. *)
Definition attempted_payload (w : Net) : list float32 :=
  sample_payload (concat (attempted <$> streams w)).

(** The frame counter counts what was handed to [Send] on the current
    stream, on which [CloseSend] was not called. *)
Definition counts_current (r : R) (w : Net) : Prop :=
  forall id s, currentStream r = Some id -> streams w !! id = Some s ->
    closeSends s = [] /\ currentFrames r = wrap64 (samples_sent s).

(** Every other stream had [CloseSend] called once. *)
Definition others_closed (r : R) (w : Net) : Prop :=
  forall id s, streams w !! id = Some s -> currentStream r <> Some id ->
    length (closeSends s) = 1%nat.

(** A stream holds one buffer at most, or no more than [maxLength] by the
    callback's measure. *)
Definition within_maxLength (r0 : R) (s : ClientStream) : Prop :=
  (buffers_sent s <= 1)%nat \/
  duration (div_of r0) (wrap64 (samples_sent s)) <= maxLength r0.

(** What every callback keeps, on any transport. *)
Definition chunker_inv (r0 : R) (st : R * Net) : Prop :=
  same_config st.1 r0 /\ current_is_last st.1 st.2 /\
  counts_current st.1 st.2 /\ others_closed st.1 st.2 /\
  Forall (within_maxLength r0) (streams st.2) /\
  (opened st.2 <= idx st.2)%nat.

(** What the program does with a chunker: the capture source calls the
    callback with a buffer, or [Close] is called. *)
Variant call : Type :=
  | OnBuffer (buf : list float32)
  | OnClose.

Definition apply_call (T : Transport) (r0 : R) (st : R * Net) (c : call) : R * Net :=
  match c with
  | OnBuffer buf => Process T r0 buf st
  | OnClose => let '(_, r, w) := Close T st.1 st.2 in (r, w)
  end.

(** Any run of callbacks and calls of [Close], in order. *)
Definition run (T : Transport) (r0 : R) (calls : list call) (st : R * Net) : R * Net :=
  fold_left (apply_call T r0) calls st.

(** A transport on which streams open and headers go through; sample sends
    may fail. *)
Definition headers_reliable (T : Transport) : Prop :=
  (forall n, record_err T n = None) /\ (forall id, send_err T id 0 = None).

(** A transport on which every second [Send] on a stream fails. *)
Definition lossy : Transport :=
  {| record_err := fun _ => None;
     send_err := fun id k => if Nat.even k then None else Some (ErrSend id k);
     closeSend_err := fun _ _ => None |}.

End chunker.

(** ** Sessions one after the other, and reading a file name *)

Module sessions.

Import server.




(** Reading back what [%03d] printed for a number that is not negative. *)
Definition read_03d (s : string) : option Z :=
  option_map (fun d => Z.of_N (N.of_uint d)) (NilEmpty.uint_of_string s).

End sessions.

(** * Facts about the client *)

Lemma wrap64_small z : min_int64 <= z <= max_int64 -> wrap64 z = z.
Proof.
  unfold wrap64, wrap, min_int64, max_int64. intros Hz.
  rewrite Z.mod_small by lia. lia.
Qed.

Section ClientFacts.

Import recorder.

Variable T : Transport.

(** *** The transport's calls *)

Lemma Send_idx id req w : idx (Send T id req w).2 = idx w.
Proof. unfold Send. by destruct (streams w !! id). Qed.

Lemma Send_length id req w : length (streams (Send T id req w).2) = length (streams w).
Proof. unfold Send. destruct (streams w !! id); simpl; [apply length_insert | done]. Qed.

Lemma CloseSend_idx id w : idx (CloseSend T id w).2 = idx w.
Proof. unfold CloseSend. by destruct (streams w !! id). Qed.

Lemma CloseSend_length id w :
  length (streams (CloseSend T id w).2) = length (streams w).
Proof. unfold CloseSend. destruct (streams w !! id); simpl; [apply length_insert | done]. Qed.

Lemma CloseSend_sends id w : sends <$> streams (CloseSend T id w).2 = sends <$> streams w.
Proof.
  unfold CloseSend. destruct (streams w !! id) as [s|] eqn:Hs; simpl; [|done].
  rewrite list_fmap_insert. simpl. apply list_insert_id.
  by rewrite list_lookup_fmap, Hs.
Qed.

Lemma Send_last id req n pre s :
  id = length pre ->
  Send T id req {| idx := n; streams := pre ++ [s] |} =
  (send_err T id (length (sends s)),
   {| idx := n;
      streams := pre ++ [ {| sends := sends s ++ [(req, send_err T id (length (sends s)))];
                              closeSends := closeSends s |} ] |}).
Proof.
  intros ->. unfold Send. simpl. rewrite list_lookup_middle by done.
  rewrite insert_app_r_alt by done. by rewrite Nat.sub_diag.
Qed.

(** *** [closeCurrentStream] *)

Lemma closeCurrentStream_R r w :
  (closeCurrentStream T r w).1.2 = set_currentFrames 0 r.
Proof.
  unfold closeCurrentStream. simpl. destruct (currentStream r); [|done].
  by destruct (CloseSend T n w).
Qed.

Lemma closeCurrentStream_idx r w : idx (closeCurrentStream T r w).2 = idx w.
Proof.
  unfold closeCurrentStream. simpl. destruct (currentStream r) as [id|]; [|done].
  pose proof (CloseSend_idx id w). by destruct (CloseSend T id w).
Qed.

Lemma closeCurrentStream_length r w :
  length (streams (closeCurrentStream T r w).2) = length (streams w).
Proof.
  unfold closeCurrentStream. simpl. destruct (currentStream r) as [id|]; [|done].
  pose proof (CloseSend_length id w). by destruct (CloseSend T id w).
Qed.

Lemma closeCurrentStream_sends r w :
  sends <$> streams (closeCurrentStream T r w).2 = sends <$> streams w.
Proof.
  unfold closeCurrentStream. simpl. destruct (currentStream r) as [id|]; [|done].
  pose proof (CloseSend_sends id w). by destruct (CloseSend T id w).
Qed.

(** *** The two ways through the callback *)

(** No rotation: the buffer goes to the current stream. *)
Lemma Process_keep r0 buf r w id :
  currentStream r = Some id ->
  projected (div_of r0) r (Z.of_nat (length buf)) <= maxLength r ->
  Process T r0 buf (r, w) =
  (set_currentFrames (wrap64 (currentFrames r + Z.of_nat (length buf))) r,
   (Send T id (sample_request buf) w).2).
Proof.
  intros Hid Hd. unfold Process, testAndCloseStream.
  rewrite Hid. rewrite bool_decide_true by done.
  apply Z.leb_le in Hd. rewrite Hd. simpl. rewrite Hid.
  by destruct (Send T id (sample_request buf) w).
Qed.

(** Rotation: close, open, send the header, then the buffer. *)
Lemma Process_rotate r0 buf r w :
  currentStream r = None \/ maxLength r < projected (div_of r0) r (Z.of_nat (length buf)) ->
  Process T r0 buf (r, w) =
  let w1 := (closeCurrentStream T r w).2 in
  let id := length (streams w) in
  match record_err T (idx w) with
  | Some _ =>
      (set_currentStream None (set_currentFrames 0 r),
       {| idx := S (idx w); streams := streams w1 |})
  | None =>
      let r2 := set_currentStream (Some id) (set_currentFrames 0 r) in
      let w2 := {| idx := S (idx w);
                   streams := streams w1 ++ [ {| sends := []; closeSends := [] |} ] |} in
      match Send T id (header_request r) w2 with
      | (Some _, w3) => (r2, w3)
      | (None, w3) =>
          (set_currentFrames (wrap64 (Z.of_nat (length buf))) r2,
           (Send T id (sample_request buf) w3).2)
      end
  end.
Proof.
  intros Hrot. unfold Process, testAndCloseStream.
  replace (bool_decide (currentStream r <> None) &&
           (projected (div_of r0) r (Z.of_nat (length buf)) <=? maxLength r)) with false.
  2:{ symmetry. apply andb_false_iff. destruct Hrot as [Hn|Hlt].
      - left. apply bool_decide_eq_false. by rewrite Hn; intros [].
      - right. by apply Z.leb_gt. }
  pose proof (closeCurrentStream_R r w) as HR.
  pose proof (closeCurrentStream_idx r w) as HI.
  pose proof (closeCurrentStream_length r w) as HL.
  destruct (closeCurrentStream T r w) as [[e1 r1] w1]. simpl in HR, HI, HL. subst r1.
  unfold Record. rewrite HI, HL.
  destruct (record_err T (idx w)) as [e|]; [done|].
  simpl.
  change (header_request (set_currentStream (Some (length (streams w))) (set_currentFrames 0 r)))
    with (header_request r).
  destruct (Send T (length (streams w)) (header_request r) _) as [[e|] w3]; [done|].
  simpl. by destruct (Send T (length (streams w)) (sample_request buf) w3).
Qed.

(** *** The callback on a reliable transport *)

Lemma Process_rotate_reliable r0 buf r w :
  reliable T ->
  currentStream r = None \/ maxLength r < projected (div_of r0) r (Z.of_nat (length buf)) ->
  Process T r0 buf (r, w) =
  (set_currentFrames (wrap64 (Z.of_nat (length buf)))
     (set_currentStream (Some (length (streams w))) (set_currentFrames 0 r)),
   {| idx := S (idx w);
      streams := streams (closeCurrentStream T r w).2 ++
                 [ {| sends := [(header_request r, None); (sample_request buf, None)];
                      closeSends := [] |} ] |}).
Proof.
  intros [Hrec Hsend] Hrot. rewrite Process_rotate by done. cbv zeta.
  rewrite Hrec.
  pose proof (closeCurrentStream_length r w) as HL.
  rewrite (Send_last _ _ _ (streams (closeCurrentStream T r w).2)) by done.
  rewrite Hsend.
  rewrite (Send_last _ _ _ (streams (closeCurrentStream T r w).2)) by done.
  simpl. by rewrite !Hsend.
Qed.

Lemma Process_keep_reliable r0 buf r n pre s :
  reliable T ->
  currentStream r = Some (length pre) ->
  projected (div_of r0) r (Z.of_nat (length buf)) <= maxLength r ->
  Process T r0 buf (r, {| idx := n; streams := pre ++ [s] |}) =
  (set_currentFrames (wrap64 (currentFrames r + Z.of_nat (length buf))) r,
   {| idx := n;
      streams := pre ++ [ {| sends := sends s ++ [(sample_request buf, None)];
                             closeSends := closeSends s |} ] |}).
Proof.
  intros [_ Hsend] Hid Hd. rewrite (Process_keep _ _ _ _ _ Hid Hd).
  rewrite Send_last by done. simpl. by rewrite Hsend.
Qed.

(** *** What the observer sees of one step *)

Lemma snoc_of_length {A} (l : list A) n :
  length l = S n -> exists pre x, l = pre ++ [x] /\ length pre = n.
Proof.
  destruct l as [|y l] using rev_ind; [done|].
  rewrite length_app. simpl. intros Hl. exists l, y. split; [done | lia].
Qed.

Lemma sample_payload_app a b :
  sample_payload (a ++ b) = sample_payload a ++ sample_payload b.
Proof. unfold sample_payload. by rewrite list.filter_app, fmap_app, concat_app. Qed.

Lemma delivered_of_sends (l l' : list ClientStream) :
  sends <$> l = sends <$> l' -> delivered <$> l = delivered <$> l'.
Proof.
  intros H.
  change (delivered <$> l) with
    ((fun x => (filter (fun c : RecordRequest * option error => c.2 = None) x).*1) ∘ sends <$> l).
  change (delivered <$> l') with
    ((fun x => (filter (fun c : RecordRequest * option error => c.2 = None) x).*1) ∘ sends <$> l').
  by rewrite !list_fmap_compose, H.
Qed.

Lemma payload_snoc n n' pre s :
  payload {| idx := n; streams := pre ++ [s] |} =
  payload {| idx := n'; streams := pre |} ++ sample_payload (delivered s).
Proof.
  unfold payload. simpl. rewrite fmap_app, concat_app, sample_payload_app.
  simpl. by rewrite app_nil_r.
Qed.

Lemma Process_payload r0 buf r w :
  reliable T -> current_is_last r w ->
  payload (Process T r0 buf (r, w)).2 = payload w ++ buf.
Proof.
  intros HT Hlast.
  destruct (currentStream r) as [id|] eqn:Hid;
    [destruct (Z_le_gt_dec (projected (div_of r0) r (Z.of_nat (length buf))) (maxLength r))
       as [Hd|Hd] |].
  - unfold current_is_last in Hlast. rewrite Hid in Hlast.
    destruct (snoc_of_length (streams w) id) as (pre & s & Hw & Hpre); [done|].
    destruct w as [n l]. simpl in Hw. subst l id.
    rewrite Process_keep_reliable by done. simpl.
    rewrite !(payload_snoc n n), <- app_assoc. f_equal.
    unfold delivered. simpl. rewrite list.filter_app, fmap_app, sample_payload_app.
    f_equal. unfold sample_payload. simpl. by rewrite app_nil_r.
  - rewrite Process_rotate_reliable by (done || (right; lia)). simpl.
    rewrite (payload_snoc _ (idx w)). unfold payload at 1 2. simpl.
    rewrite (delivered_of_sends _ (streams w)) by apply closeCurrentStream_sends.
    f_equal. unfold sample_payload. simpl. by rewrite app_nil_r.
  - rewrite Process_rotate_reliable by (done || by left). simpl.
    rewrite (payload_snoc _ (idx w)). unfold payload at 1 2. simpl.
    rewrite (delivered_of_sends _ (streams w)) by apply closeCurrentStream_sends.
    f_equal. unfold sample_payload. simpl. by rewrite app_nil_r.
Qed.

(** *** What every step keeps, whatever the transport does *)

Lemma Process_current_is_last r0 buf r w :
  current_is_last r w ->
  current_is_last (Process T r0 buf (r, w)).1 (Process T r0 buf (r, w)).2.
Proof.
  intros Hlast.
  destruct (currentStream r) as [id|] eqn:Hid;
    [destruct (Z_le_gt_dec (projected (div_of r0) r (Z.of_nat (length buf))) (maxLength r))
       as [Hd|Hd] |].
  - rewrite (Process_keep _ _ _ _ _ Hid Hd). unfold current_is_last in *. simpl.
    rewrite Hid in *. by rewrite Send_length.
  - rewrite Process_rotate by (right; lia). cbv zeta.
    pose proof (closeCurrentStream_length r w) as HL.
    destruct (record_err T (idx w)); [done|].
    destruct (Send T _ _ _) as [[e|] w3] eqn:HS;
      apply (f_equal snd) in HS; simpl in HS; subst w3;
      unfold current_is_last; simpl; rewrite ?Send_length; simpl;
      rewrite length_app, HL; simpl; lia.
  - rewrite Process_rotate by (by left). cbv zeta.
    pose proof (closeCurrentStream_length r w) as HL.
    destruct (record_err T (idx w)); [done|].
    destruct (Send T _ _ _) as [[e|] w3] eqn:HS;
      apply (f_equal snd) in HS; simpl in HS; subst w3;
      unfold current_is_last; simpl; rewrite ?Send_length; simpl;
      rewrite length_app, HL; simpl; lia.
Qed.

Lemma feed_cons cb b bs st : feed cb (b :: bs) st = feed cb bs (cb b st).
Proof. done. Qed.

Lemma feed_snoc cb bs b st : feed cb (bs ++ [b]) st = cb b (feed cb bs st).
Proof. unfold feed. by rewrite fold_left_app. Qed.

Lemma feed_payload r0 bufs r w :
  reliable T -> current_is_last r w ->
  payload (feed (Process T r0) bufs (r, w)).2 = payload w ++ concat bufs.
Proof.
  intros HT. revert r w.
  induction bufs as [|b bs IH]; intros r w Hlast.
  - simpl. by rewrite app_nil_r.
  - rewrite feed_cons.
    pose proof (Process_current_is_last r0 b r w Hlast) as Hlast'.
    pose proof (Process_payload r0 b r w HT Hlast) as Hp.
    destruct (Process T r0 b (r, w)) as [r' w']. simpl in Hlast', Hp.
    rewrite IH by done. rewrite Hp. simpl. by rewrite <- app_assoc.
Qed.

Lemma Process_same_config r0 buf r w :
  same_config (Process T r0 buf (r, w)).1 r.
Proof.
  destruct (currentStream r) as [id|] eqn:Hid;
    [destruct (Z_le_gt_dec (projected (div_of r0) r (Z.of_nat (length buf))) (maxLength r))
       as [Hd|Hd] |].
  - by rewrite (Process_keep _ _ _ _ _ Hid Hd).
  - rewrite Process_rotate by (right; lia). cbv zeta.
    destruct (record_err T (idx w)); [done|]. by destruct (Send T _ _ _) as [[e|] w3].
  - rewrite Process_rotate by (by left). cbv zeta.
    destruct (record_err T (idx w)); [done|]. by destruct (Send T _ _ _) as [[e|] w3].
Qed.

(** *** The header comes first on every stream *)

Lemma headed_insert h l id s s' m e :
  headed T h l -> l !! id = Some s ->
  (sends s' = sends s \/ (sends s' = sends s ++ [(m, e)] /\ Header m = None)) ->
  headed T h (<[id := s']> l).
Proof.
  intros Hl Hs Hs' j x. rewrite list_lookup_insert.
  case_decide as Hj; [|by apply Hl]. destruct Hj as [-> _]. intros [= <-].
  destruct (Hl _ _ Hs) as (rs & Hrs & Hall).
  destruct Hs' as [->|[-> Hm]]; [by exists rs|].
  exists (rs ++ [(m, e)]). rewrite Hrs. split; [done|].
  apply Forall_app. split; [done|]. by apply Forall_singleton.
Qed.

Lemma headed_snoc h l s rs :
  headed T h l -> sends s = (h, send_err T (length l) 0) :: rs ->
  Forall (fun c => Header c.1 = None) rs ->
  headed T h (l ++ [s]).
Proof.
  intros Hl Hs Hrs j x [[_ Hj]|[-> <-]]%lookup_snoc_Some; [by apply Hl|]. by exists rs.
Qed.

Lemma headed_of_sends h (l l' : list ClientStream) :
  sends <$> l = sends <$> l' -> headed T h l' -> headed T h l.
Proof.
  intros Heq Hl' id s Hs.
  assert ((sends <$> l') !! id = Some (sends s)) as Hs'
    by (by rewrite <- Heq, list_lookup_fmap, Hs).
  rewrite list_lookup_fmap in Hs'.
  destruct (l' !! id) as [s'|] eqn:E; [|done]. simpl in Hs'. injection Hs' as Hs'.
  rewrite <- Hs'. by apply (Hl' id).
Qed.

Lemma Send_headed h id buf w :
  headed T h (streams w) ->
  headed T h (streams (Send T id (sample_request buf) w).2).
Proof.
  intros Hw. unfold Send. destruct (streams w !! id) as [s|] eqn:Hs; [|done]. simpl.
  eapply headed_insert; [done..|]. right. by simpl.
Qed.

Lemma Process_headed r0 buf r w :
  same_config r r0 -> headed T (header_request r0) (streams w) ->
  headed T (header_request r0) (streams (Process T r0 buf (r, w)).2).
Proof.
  intros (Hc & Hs & _) Hw.
  assert (header_request r = header_request r0) as Hh
    by (unfold header_request; by rewrite Hc, Hs).
  assert (headed T (header_request r0) (streams (closeCurrentStream T r w).2)) as Hw1
    by (eapply headed_of_sends; [apply closeCurrentStream_sends | done]).
  pose proof (closeCurrentStream_length r w) as HL.
  assert (Process T r0 buf (r, w) = (Process T r0 buf (r, w)) ->
          currentStream r = None \/
          maxLength r < projected (div_of r0) r (Z.of_nat (length buf)) ->
          headed T (header_request r0) (streams (Process T r0 buf (r, w)).2)) as Hrot.
  { intros _ Hrot. rewrite Process_rotate by done. cbv zeta.
    destruct (record_err T (idx w)); [done|].
    rewrite (Send_last _ _ _ (streams (closeCurrentStream T r w).2)) by done.
    cbn [sends length].
    destruct (send_err T (length (streams w)) 0) as [e|] eqn:He; simpl.
    - eapply headed_snoc; [done| |by apply Forall_nil].
      simpl. by rewrite HL, Hh, He.
    - rewrite (Send_last _ _ _ (streams (closeCurrentStream T r w).2)) by done. simpl.
      eapply headed_snoc; [done| |].
      + simpl. rewrite HL, Hh, He. done.
      + by apply Forall_singleton. }
  destruct (currentStream r) as [id|] eqn:Hid;
    [destruct (Z_le_gt_dec (projected (div_of r0) r (Z.of_nat (length buf))) (maxLength r))
       as [Hd|Hd] |].
  - rewrite (Process_keep _ _ _ _ _ Hid Hd). simpl. by apply Send_headed.
  - apply Hrot; [done | right; lia].
  - apply Hrot; [done | by left].
Qed.

Lemma feed_headed r0 bufs r w :
  same_config r r0 -> headed T (header_request r0) (streams w) ->
  headed T (header_request r0) (streams (feed (Process T r0) bufs (r, w)).2).
Proof.
  revert r w. induction bufs as [|b bs IH]; intros r w Hc Hw; [done|].
  rewrite feed_cons.
  pose proof (Process_same_config r0 b r w) as Hc'.
  pose proof (Process_headed r0 b r w Hc Hw) as Hw'.
  destruct (Process T r0 b (r, w)) as [r' w']. simpl in Hc', Hw'.
  apply IH; [|done]. destruct Hc' as (? & ? & ?), Hc as (? & ? & ?).
  repeat split; congruence.
Qed.

(** *** Constant-size buffers *)

Lemma ceil_div_chunks (q j k : nat) :
  (1 <= j <= k)%nat ->
  ceil_div (Z.of_nat (q * k + j)) (Z.of_nat k) = Z.of_nat (S q).
Proof.
  intros Hj. unfold ceil_div. symmetry.
  apply (Z.div_unique_pos _ _ _ (Z.of_nat j - 1)); lia.
Qed.

Lemma Process_chunk_state r0 k len n buf st :
  reliable T ->
  (1 <= k)%nat ->
  0 <= len -> Z.of_nat (S k) * len <= max_int64 ->
  (forall j : nat, (1 <= j <= k)%nat ->
     duration (div_of r0) (Z.of_nat j * len) <= maxLength r0) ->
  maxLength r0 < duration (div_of r0) (Z.of_nat (S k) * len) ->
  Z.of_nat (length buf) = len ->
  chunk_state r0 k len n st ->
  chunk_state r0 k len (S n) (Process T r0 buf st).
Proof.
  intros HT Hk Hlen Hmax Hfit Hover Hbuf [Hcfg Hst]. destruct st as [r w].
  split.
  { pose proof (Process_same_config r0 buf r w) as (? & ? & ?).
    destruct Hcfg as (? & ? & ?). simpl in *. repeat split; congruence. }
  assert (wrap64 len = len) as Hwl.
  { apply wrap64_small. unfold min_int64, max_int64 in *. nia. }
  simpl in Hst, Hcfg. destruct Hcfg as (_ & _ & HM).
  destruct n as [|n].
  - destruct Hst as [Hnone Hnil].
    rewrite Process_rotate_reliable by (done || by left). simpl.
    exists 0%nat, 1%nat. rewrite length_app, closeCurrentStream_length, Hnil, Hbuf, Hwl.
    simpl. repeat split; try done; lia.
  - destruct Hst as (q & j & Hj & Hn & Hlen' & Hcur & Hfr).
    assert (projected (div_of r0) r (Z.of_nat (length buf)) =
            duration (div_of r0) (Z.of_nat (S j) * len)) as Hd.
    { unfold projected. rewrite Hfr, Hbuf. f_equal.
      rewrite wrap64_small; unfold min_int64, max_int64 in *; nia. }
    destruct (decide (j = k)) as [->|Hjk].
    + rewrite Process_rotate_reliable by (done || (right; rewrite Hd, HM; done)). simpl.
      exists (S q), 1%nat.
      rewrite length_app, closeCurrentStream_length, Hlen', Hbuf, Hwl.
      simpl. repeat split; try done; lia.
    + assert (projected (div_of r0) r (Z.of_nat (length buf)) <= maxLength r) as Hle.
      { rewrite Hd, HM. apply Hfit. lia. }
      rewrite (Process_keep _ _ _ _ _ Hcur Hle). simpl.
      exists q, (S j). rewrite Send_length, Hbuf, Hfr.
      rewrite wrap64_small by (unfold min_int64, max_int64 in *; nia).
      repeat split; try done; lia.
Qed.

Lemma feed_chunk_state r0 k len bufs st :
  reliable T ->
  (1 <= k)%nat ->
  0 <= len -> Z.of_nat (S k) * len <= max_int64 ->
  (forall j : nat, (1 <= j <= k)%nat ->
     duration (div_of r0) (Z.of_nat j * len) <= maxLength r0) ->
  maxLength r0 < duration (div_of r0) (Z.of_nat (S k) * len) ->
  Forall (fun buf => Z.of_nat (length buf) = len) bufs ->
  chunk_state r0 k len 0 st ->
  chunk_state r0 k len (length bufs) (feed (Process T r0) bufs st).
Proof.
  intros HT Hk Hlen Hmax Hfit Hover Hbufs Hst.
  induction bufs as [|b bs IH] using rev_ind; [done|].
  apply Forall_app in Hbufs as [Hbs Hb]. rewrite Forall_singleton in Hb.
  rewrite feed_snoc, length_app, Nat.add_1_r.
  apply Process_chunk_state; [done..|]. by apply IH.
Qed.

(** *** When the callback rotates *)

Lemma Process_rotation_idx r0 buf r w :
  currentStream r = None \/ maxLength r < projected (div_of r0) r (Z.of_nat (length buf)) ->
  idx (Process T r0 buf (r, w)).2 = S (idx w).
Proof.
  intros Hrot. rewrite Process_rotate by done. cbv zeta.
  destruct (record_err T (idx w)); [done|].
  destruct (Send T _ _ _) as [[e|] w3] eqn:HS;
    apply (f_equal snd) in HS; simpl in HS; subst w3; simpl;
    by rewrite ?Send_idx.
Qed.

Lemma Process_no_rotation r0 buf r w id s :
  currentStream r = Some id -> streams w !! id = Some s ->
  projected (div_of r0) r (Z.of_nat (length buf)) <= maxLength r ->
  idx (Process T r0 buf (r, w)).2 = idx w /\
  opened (Process T r0 buf (r, w)).2 = opened w /\
  currentStream (Process T r0 buf (r, w)).1 = Some id /\
  exists s', streams (Process T r0 buf (r, w)).2 !! id = Some s' /\
             attempted s' = attempted s ++ [sample_request buf].
Proof.
  intros Hid Hs Hd. rewrite (Process_keep _ _ _ _ _ Hid Hd). simpl.
  rewrite Send_idx. unfold opened. rewrite Send_length. repeat split; try done.
  unfold Send. rewrite Hs. simpl. eexists. split.
  - apply list_lookup_insert_eq. by eapply lookup_lt_Some.
  - unfold attempted. simpl. by rewrite fmap_app.
Qed.

(** *** The messages carried, step by step, on a reliable transport *)

Lemma Process_rotate_carried r0 buf r w :
  reliable T ->
  currentStream r = None \/ maxLength r < projected (div_of r0) r (Z.of_nat (length buf)) ->
  (Process T r0 buf (r, w)).1 =
    set_currentFrames (wrap64 (Z.of_nat (length buf)))
      (set_currentStream (Some (length (streams w))) (set_currentFrames 0 r)) /\
  carried (Process T r0 buf (r, w)).2 =
    carried w ++ [[header_request r; sample_request buf]].
Proof.
  intros HT Hrot. rewrite Process_rotate_reliable by done. split; [done|].
  unfold carried. simpl. rewrite fmap_app.
  by rewrite (delivered_of_sends _ (streams w)) by apply closeCurrentStream_sends.
Qed.

Lemma Process_keep_carried r0 buf r w id pre l :
  reliable T -> current_is_last r w ->
  currentStream r = Some id ->
  projected (div_of r0) r (Z.of_nat (length buf)) <= maxLength r ->
  carried w = pre ++ [l] ->
  (Process T r0 buf (r, w)).1 =
    set_currentFrames (wrap64 (currentFrames r + Z.of_nat (length buf))) r /\
  carried (Process T r0 buf (r, w)).2 = pre ++ [l ++ [sample_request buf]].
Proof.
  intros HT Hlast Hid Hd Hw. unfold current_is_last in Hlast. rewrite Hid in Hlast.
  destruct (snoc_of_length (streams w) id) as (pre' & s & Hs & Hpre); [done|].
  destruct w as [n ss]. simpl in Hs. subst ss id.
  rewrite Process_keep_reliable by done. split; [done|].
  unfold carried in *. simpl in *. rewrite fmap_app in *. simpl in *.
  apply app_inj_tail in Hw as [<- <-].
  unfold delivered. simpl. by rewrite list.filter_app, fmap_app.
Qed.

(** *** A rotation that fails *)

(** The stream cannot be opened: nothing is sent, no stream is held. *)
Lemma Process_open_failure r0 buf r w e :
  currentStream r = None \/ maxLength r < projected (div_of r0) r (Z.of_nat (length buf)) ->
  record_err T (idx w) = Some e ->
  currentStream (Process T r0 buf (r, w)).1 = None /\
  idx (Process T r0 buf (r, w)).2 = S (idx w) /\
  sends <$> streams (Process T r0 buf (r, w)).2 = sends <$> streams w.
Proof.
  intros Hrot He. rewrite Process_rotate by done. cbv zeta. rewrite He. simpl.
  repeat split. apply closeCurrentStream_sends.
Qed.

(** The header cannot be sent: the buffer is not sent either, and the new
    stream stays in place. *)
Lemma Process_header_failure r0 buf r w e :
  currentStream r = None \/ maxLength r < projected (div_of r0) r (Z.of_nat (length buf)) ->
  record_err T (idx w) = None ->
  send_err T (length (streams w)) 0 = Some e ->
  currentStream (Process T r0 buf (r, w)).1 = Some (length (streams w)) /\
  currentFrames (Process T r0 buf (r, w)).1 = 0 /\
  streams (Process T r0 buf (r, w)).2 =
    streams (closeCurrentStream T r w).2 ++
    [ {| sends := [(header_request r, Some e)]; closeSends := [] |} ].
Proof.
  intros Hrot Hrec He. rewrite Process_rotate by done. cbv zeta. rewrite Hrec.
  pose proof (closeCurrentStream_length r w) as HL.
  rewrite (Send_last _ _ _ (streams (closeCurrentStream T r w).2)) by done.
  cbn [sends length]. by rewrite He.
Qed.

End ClientFacts.

(** * The client's claims *)

Section ClientClaims.

Import recorder.

(** C1. Sample preservation: for every sequence of capture buffers fed in
    order to the callback of [Process], on a transport where every stream
    open and every send succeeds, the samples of the messages without a
    header that went through, taken over all streams in the order the streams
    were opened and within a stream in the order sent, are the concatenation
    of the buffers. *)
Theorem sample_preservation (T : Transport) (M ch : Z) (sr : float32)
    (bufs : list (list float32)) :
  reliable T ->
  payload (feed (Process T (New M ch sr)) bufs (New M ch sr, net0)).2 = concat bufs.
Proof.
  intros HT. by rewrite feed_payload.
Qed.

Lemma sample_preservation_witness :
  reliable no_failure /\
  payload (feed (Process no_failure (New (2 * Second) 1 (Float32.of_int 2)))
             [[Float32.of_int 1; Float32.of_int 2]; [Float32.of_int 3; Float32.of_int 4];
              [Float32.of_int 5; Float32.of_int 6]]
             (New (2 * Second) 1 (Float32.of_int 2), net0)).2 =
  concat [[Float32.of_int 1; Float32.of_int 2]; [Float32.of_int 3; Float32.of_int 4];
          [Float32.of_int 5; Float32.of_int 6]].
Proof.
  split; [by split|]. apply sample_preservation. by split.
Defined.

(** C4. Header invariant: whatever the transport does, on every stream the
    chunker opened the first message sent is the header (the configured
    channel count and sample rate, no samples) and no later message sent on
    it has a header; when that first send succeeded, the same holds of the
    messages that went through. *)
Theorem header_invariant (T : Transport) (M ch : Z) (sr : float32)
    (bufs : list (list float32)) (id : nat) (s : ClientStream) :
  streams (feed (Process T (New M ch sr)) bufs (New M ch sr, net0)).2 !! id = Some s ->
  let h := {| Header := Some {| NumChannels := ch; SampleRate := sr |}; Sample := [] |} in
  header_first h (attempted s) /\
  (send_err T id 0 = None -> header_first h (delivered s)).
Proof.
  intros Hs h.
  destruct (feed_headed T (New M ch sr) bufs (New M ch sr) net0) with (id := id) (s := s)
    as (rs & Hrs & Hall); [done | by intros ? ? | done |].
  change (header_request (New M ch sr)) with h in Hrs.
  split.
  - exists (rs.*1). unfold attempted. rewrite Hrs. split; [done|].
    by apply Forall_fmap.
  - intros He. exists ((filter (fun c => c.2 = None) rs).*1).
    unfold delivered. rewrite Hrs, He. split; [done|].
    apply Forall_fmap. clear Hrs. induction Hall as [|c rs' Hc Hall IH]; [done|].
    rewrite filter_cons. case_decide; [by constructor | done].
Qed.

Lemma header_invariant_witness :
  let T := header_lost in
  let bufs := [[Float32.of_int 1]; [Float32.of_int 2]; [Float32.of_int 3]] in
  let h := {| Header := Some {| NumChannels := 1; SampleRate := Float32.of_int 1 |};
              Sample := [] |} in
  let s := {| sends := [(h, None); (sample_request [Float32.of_int 3], None)];
              closeSends := [] |} in
  streams (feed (Process T (New (1 * Second) 1 (Float32.of_int 1))) bufs
             (New (1 * Second) 1 (Float32.of_int 1), net0)).2 !! 1%nat = Some s /\
  header_first h (attempted s) /\
  (send_err T 1 0 = None -> header_first h (delivered s)).
Proof.
  intros T bufs h s.
  assert (streams (feed (Process T (New (1 * Second) 1 (Float32.of_int 1))) bufs
             (New (1 * Second) 1 (Float32.of_int 1), net0)).2 !! 1%nat = Some s) as Hs
    by (vm_compute; reflexivity).
  split; [exact Hs|].
  exact (header_invariant T (1 * Second) 1 (Float32.of_int 1) bufs 1 s Hs).
Defined.

(** The first two cases of [TestRecorder]: two buffers of one second at
    11025 Hz mono stay on one stream, with [maxLength] three seconds and with
    [maxLength] two seconds alike. *)
Example recording_shorter_than_max_length :
  let r0 := New (3 * Second) 1 (Float32.of_int 11025) in
  let b1 := repeat (Float32.of_int 0) (Z.to_nat 11025) in
  let b2 := repeat (Float32.of_int 10) (Z.to_nat 11025) in
  carried (feed (Process no_failure r0) [b1; b2] (r0, net0)).2 =
  [[header_request r0; sample_request b1; sample_request b2]].
Proof. vm_compute. reflexivity. Qed.

Example recording_equal_max_length :
  let r0 := New (2 * Second) 1 (Float32.of_int 11025) in
  let b1 := repeat (Float32.of_int 0) (Z.to_nat 11025) in
  let b2 := repeat (Float32.of_int 10) (Z.to_nat 11025) in
  carried (feed (Process no_failure r0) [b1; b2] (r0, net0)).2 =
  [[header_request r0; sample_request b1; sample_request b2]].
Proof. vm_compute. reflexivity. Qed.

(** The test's third case, for arbitrary sample values: two seconds per
    stream at 11025 Hz mono, five buffers of one second each. *)
Lemma five_seconds_in_three_streams (T : Transport) (b1 b2 b3 b4 b5 : list float32) :
  reliable T ->
  Z.of_nat (length b1) = 11025 -> Z.of_nat (length b2) = 11025 ->
  Z.of_nat (length b3) = 11025 -> Z.of_nat (length b4) = 11025 ->
  Z.of_nat (length b5) = 11025 ->
  let r0 := New (2 * Second) 1 (Float32.of_int 11025) in
  carried (feed (Process T r0) [b1; b2; b3; b4; b5] (r0, net0)).2 =
  [ [header_request r0; sample_request b1; sample_request b2];
    [header_request r0; sample_request b3; sample_request b4];
    [header_request r0; sample_request b5] ].
Proof.
  intros HT H1 H2 H3 H4 H5 r0. rewrite !feed_cons. unfold feed. cbn [fold_left].
  (* buffer 1: nothing open *)
  pose proof (Process_rotate_carried T r0 b1 r0 net0 HT (or_introl eq_refl)) as [Hr1 Hc1].
  pose proof (Process_current_is_last T r0 b1 r0 net0 I) as Hl1.
  destruct (Process T r0 b1 (r0, net0)) as [r1 w1]. cbn [fst snd] in Hr1, Hc1, Hl1.
  rewrite H1 in Hr1. subst r1.
  (* buffer 2: two seconds, the boundary *)
  match type of Hl1 with current_is_last ?r _ =>
    assert (projected (div_of r0) r (Z.of_nat (length b2)) <= maxLength r) as Hd2
      by (rewrite H2; vm_compute; discriminate);
    pose proof (Process_keep_carried T r0 b2 r w1 0 [] _ HT Hl1 eq_refl Hd2 Hc1) as [Hr2 Hc2];
    pose proof (Process_current_is_last T r0 b2 r w1 Hl1) as Hl2;
    destruct (Process T r0 b2 (r, w1)) as [r2 w2]
  end.
  cbn [fst snd] in Hr2, Hc2, Hl2. rewrite H2 in Hr2. subst r2.
  (* buffer 3: three seconds *)
  match type of Hl2 with current_is_last ?r _ =>
    assert (maxLength r < projected (div_of r0) r (Z.of_nat (length b3))) as Hd3
      by (rewrite H3; vm_compute; reflexivity);
    pose proof (Process_rotate_carried T r0 b3 r w2 HT (or_intror Hd3)) as [Hr3 Hc3];
    pose proof (Process_current_is_last T r0 b3 r w2 Hl2) as Hl3;
    destruct (Process T r0 b3 (r, w2)) as [r3 w3]
  end.
  cbn [fst snd] in Hr3, Hc3, Hl3. rewrite H3 in Hr3. rewrite Hc2 in Hc3. subst r3.
  (* buffer 4: two seconds on the second stream *)
  match type of Hl3 with current_is_last ?r _ =>
    assert (projected (div_of r0) r (Z.of_nat (length b4)) <= maxLength r) as Hd4
      by (rewrite H4; vm_compute; discriminate);
    pose proof (Process_keep_carried T r0 b4 r w3 _ _ _ HT Hl3 eq_refl Hd4 Hc3) as [Hr4 Hc4];
    pose proof (Process_current_is_last T r0 b4 r w3 Hl3) as Hl4;
    destruct (Process T r0 b4 (r, w3)) as [r4 w4]
  end.
  cbn [fst snd] in Hr4, Hc4, Hl4. rewrite H4 in Hr4. subst r4.
  (* buffer 5: three seconds *)
  match type of Hl4 with current_is_last ?r _ =>
    assert (maxLength r < projected (div_of r0) r (Z.of_nat (length b5))) as Hd5
      by (rewrite H5; vm_compute; reflexivity);
    pose proof (Process_rotate_carried T r0 b5 r w4 HT (or_intror Hd5)) as [_ Hc5]
  end.
  rewrite Hc5, Hc4. reflexivity.
Qed.

(** The sends made on every stream, with their results, step by step on a
    reliable transport. *)
Lemma Process_rotate_sends (T : Transport) r0 buf r w :
  reliable T ->
  currentStream r = None \/ maxLength r < projected (div_of r0) r (Z.of_nat (length buf)) ->
  (Process T r0 buf (r, w)).1 =
    set_currentFrames (wrap64 (Z.of_nat (length buf)))
      (set_currentStream (Some (length (streams w))) (set_currentFrames 0 r)) /\
  sends <$> streams (Process T r0 buf (r, w)).2 =
    (sends <$> streams w) ++ [[(header_request r, None); (sample_request buf, None)]].
Proof.
  intros HT Hrot. rewrite Process_rotate_reliable by done. split; [done|].
  simpl. rewrite fmap_app. by rewrite closeCurrentStream_sends.
Qed.

Lemma Process_keep_sends (T : Transport) r0 buf r w id pre l :
  reliable T -> current_is_last r w ->
  currentStream r = Some id ->
  projected (div_of r0) r (Z.of_nat (length buf)) <= maxLength r ->
  sends <$> streams w = pre ++ [l] ->
  (Process T r0 buf (r, w)).1 =
    set_currentFrames (wrap64 (currentFrames r + Z.of_nat (length buf))) r /\
  sends <$> streams (Process T r0 buf (r, w)).2 = pre ++ [l ++ [(sample_request buf, None)]].
Proof.
  intros HT Hlast Hid Hd Hw. unfold current_is_last in Hlast. rewrite Hid in Hlast.
  destruct (snoc_of_length (streams w) id) as (pre' & s & Hs & Hpre); [done|].
  destruct w as [n ss]. simpl in Hs. subst ss id.
  rewrite Process_keep_reliable by done. split; [done|].
  simpl in *. rewrite fmap_app in *. simpl in *.
  by apply app_inj_tail in Hw as [<- <-].
Qed.

Lemma five_seconds_sends (T : Transport) (b1 b2 b3 b4 b5 : list float32) :
  reliable T ->
  Z.of_nat (length b1) = 11025 -> Z.of_nat (length b2) = 11025 ->
  Z.of_nat (length b3) = 11025 -> Z.of_nat (length b4) = 11025 ->
  Z.of_nat (length b5) = 11025 ->
  let r0 := New (2 * Second) 1 (Float32.of_int 11025) in
  sends <$> streams (feed (Process T r0) [b1; b2; b3; b4; b5] (r0, net0)).2 =
  [ [(header_request r0, None); (sample_request b1, None); (sample_request b2, None)];
    [(header_request r0, None); (sample_request b3, None); (sample_request b4, None)];
    [(header_request r0, None); (sample_request b5, None)] ].
Proof.
  intros HT H1 H2 H3 H4 H5 r0. rewrite !feed_cons. unfold feed. cbn [fold_left].
  pose proof (Process_rotate_sends T r0 b1 r0 net0 HT (or_introl eq_refl)) as [Hr1 Hc1].
  pose proof (Process_current_is_last T r0 b1 r0 net0 I) as Hl1.
  destruct (Process T r0 b1 (r0, net0)) as [r1 w1]. cbn [fst snd] in Hr1, Hc1, Hl1.
  rewrite H1 in Hr1. subst r1.
  match type of Hl1 with current_is_last ?r _ =>
    assert (projected (div_of r0) r (Z.of_nat (length b2)) <= maxLength r) as Hd2
      by (rewrite H2; vm_compute; discriminate);
    pose proof (Process_keep_sends T r0 b2 r w1 0 [] _ HT Hl1 eq_refl Hd2 Hc1) as [Hr2 Hc2];
    pose proof (Process_current_is_last T r0 b2 r w1 Hl1) as Hl2;
    destruct (Process T r0 b2 (r, w1)) as [r2 w2]
  end.
  cbn [fst snd] in Hr2, Hc2, Hl2. rewrite H2 in Hr2. subst r2.
  match type of Hl2 with current_is_last ?r _ =>
    assert (maxLength r < projected (div_of r0) r (Z.of_nat (length b3))) as Hd3
      by (rewrite H3; vm_compute; reflexivity);
    pose proof (Process_rotate_sends T r0 b3 r w2 HT (or_intror Hd3)) as [Hr3 Hc3];
    pose proof (Process_current_is_last T r0 b3 r w2 Hl2) as Hl3;
    destruct (Process T r0 b3 (r, w2)) as [r3 w3]
  end.
  cbn [fst snd] in Hr3, Hc3, Hl3. rewrite H3 in Hr3. rewrite Hc2 in Hc3. subst r3.
  match type of Hl3 with current_is_last ?r _ =>
    assert (projected (div_of r0) r (Z.of_nat (length b4)) <= maxLength r) as Hd4
      by (rewrite H4; vm_compute; discriminate);
    pose proof (Process_keep_sends T r0 b4 r w3 _ _ _ HT Hl3 eq_refl Hd4 Hc3) as [Hr4 Hc4];
    pose proof (Process_current_is_last T r0 b4 r w3 Hl3) as Hl4;
    destruct (Process T r0 b4 (r, w3)) as [r4 w4]
  end.
  cbn [fst snd] in Hr4, Hc4, Hl4. rewrite H4 in Hr4. subst r4.
  match type of Hl4 with current_is_last ?r _ =>
    assert (maxLength r < projected (div_of r0) r (Z.of_nat (length b5))) as Hd5
      by (rewrite H5; vm_compute; reflexivity);
    pose proof (Process_rotate_sends T r0 b5 r w4 HT (or_intror Hd5)) as [_ Hc5]
  end.
  rewrite Hc5, Hc4. reflexivity.
Qed.

(** C2, as the specification states it, fails on the exact projected
    duration.  At 200000 Hz mono with [maxLength] 100.999995 s, a stream
    that was handed 20199998 samples gets one more: 20199999 samples are
    exactly 100.999995 s, but [float32(20199999)] is 20200000, the quotient
    is 101, the callback computes 101 s, and it rotates. *)
Lemma exact_boundary_counterexample :
  let r0 := New 100999995000 1 (Float32.of_int 200000) in
  let b1 : list float32 := repeat (S754_zero false) (Z.to_nat 20199998) in
  let r1 := {| currentStream := Some 0%nat; currentFrames := 20199998; numChannels := 1;
               sampleRate := Float32.of_int 200000; maxLength := 100999995000 |} in
  let w1 := {| idx := 1;
               streams := [ {| sends := [({| Header := Some {| NumChannels := 1;
                                                              SampleRate := Float32.of_int 200000 |};
                                             Sample := [] |}, None);
                                         ({| Header := None; Sample := b1 |}, None)];
                               closeSends := [] |} ] |} in
  Process no_failure r0 b1 (r0, net0) = (r1, w1) /\
  ~ boundary_rule_by_exact_duration no_failure 200000 1 r1 w1 [S754_zero false].
Proof.
  intros r0 b1 r1 w1.
  assert (Z.of_nat (length b1) = 20199998) as Hb1.
  { unfold b1. rewrite repeat_length. apply Z2Nat.id. discriminate. }
  split.
  - clearbody b1. rewrite Process_rotate_reliable by (by split || by left).
    rewrite Hb1. reflexivity.
  - intros H.
    specialize (H eq_refl eq_refl eq_refl ltac:(discriminate) eq_refl).
    rewrite Process_rotation_idx in H by (right; vm_compute; reflexivity).
    discriminate H.
Qed.

(** C2, on the duration the callback computes: the rotation decision is
    taken on [d], the [float32] quotient of the samples by
    [sampleRate * float32(numChannels)] converted to a whole number of
    seconds.  (1) With a stream open, a buffer for which [d] equals
    [maxLength] is sent on that stream: [client.Record] is not called, no
    stream is added, the chunker keeps the stream and counts the samples, and
    the buffer, in a message without a header, is the next [Send] on it.
    (2) [client.Record] is called only when no stream is open or [d] exceeds
    [maxLength].  (3) With [maxLength] two seconds, 11025 Hz, mono, and five
    buffers of 11025 samples, on a reliable transport exactly three streams
    are opened, and the sends on them are: the header and buffers 1 and 2;
    the header and buffers 3 and 4; the header and buffer 5. *)
Theorem rotation_boundary :
  (forall T r0 buf r w id s,
     let d :=
       wrap64 (Float32.to_int64
                 (Float32.div
                    (Float32.of_int (wrap64 (currentFrames r + Z.of_nat (length buf))))
                    (Float32.mul (sampleRate r0) (Float32.of_int (numChannels r0))))
               * 1000000000) in
     currentStream r = Some id -> streams w !! id = Some s ->
     d = maxLength r ->
     idx (Process T r0 buf (r, w)).2 = idx w /\
     length (streams (Process T r0 buf (r, w)).2) = length (streams w) /\
     currentStream (Process T r0 buf (r, w)).1 = Some id /\
     currentFrames (Process T r0 buf (r, w)).1 =
       wrap64 (currentFrames r + Z.of_nat (length buf)) /\
     streams (Process T r0 buf (r, w)).2 !! id =
       Some {| sends := sends s ++ [({| Header := None; Sample := buf |},
                                     send_err T id (length (sends s)))];
               closeSends := closeSends s |}) /\
  (forall T r0 buf r w,
     let d :=
       wrap64 (Float32.to_int64
                 (Float32.div
                    (Float32.of_int (wrap64 (currentFrames r + Z.of_nat (length buf))))
                    (Float32.mul (sampleRate r0) (Float32.of_int (numChannels r0))))
               * 1000000000) in
     idx (Process T r0 buf (r, w)).2 <> idx w ->
     currentStream r = None \/ maxLength r < d) /\
  (forall T (b1 b2 b3 b4 b5 : list float32),
     reliable T ->
     Z.of_nat (length b1) = 11025 -> Z.of_nat (length b2) = 11025 ->
     Z.of_nat (length b3) = 11025 -> Z.of_nat (length b4) = 11025 ->
     Z.of_nat (length b5) = 11025 ->
     let r0 := New 2000000000 1 (Float32.of_int 11025) in
     let w := (feed (Process T r0) [b1; b2; b3; b4; b5] (r0, net0)).2 in
     let h := {| Header := Some {| NumChannels := 1; SampleRate := Float32.of_int 11025 |};
                 Sample := [] |} in
     length (streams w) = 3%nat /\
     sends <$> streams w =
     [ [(h, None); ({| Header := None; Sample := b1 |}, None);
        ({| Header := None; Sample := b2 |}, None)];
       [(h, None); ({| Header := None; Sample := b3 |}, None);
        ({| Header := None; Sample := b4 |}, None)];
       [(h, None); ({| Header := None; Sample := b5 |}, None)] ]).
Proof.
  split; [|split].
  - intros T r0 buf r w id s d Hid Hs Hd.
    assert (projected (div_of r0) r (Z.of_nat (length buf)) <= maxLength r) as Hle.
    { change (projected (div_of r0) r (Z.of_nat (length buf))) with d. lia. }
    rewrite (Process_keep _ _ _ _ _ _ Hid Hle). simpl.
    rewrite Send_idx, Send_length. do 4 (split; [done|]).
    unfold Send. rewrite Hs. simpl.
    apply list_lookup_insert_eq. by eapply lookup_lt_Some.
  - intros T r0 buf r w d Hidx.
    destruct (currentStream r) as [id|] eqn:Hid; [|by left].
    change d with (projected (div_of r0) r (Z.of_nat (length buf))).
    destruct (Z_le_gt_dec (projected (div_of r0) r (Z.of_nat (length buf))) (maxLength r))
      as [Hd|Hd]; [|right; lia].
    rewrite (Process_keep _ _ _ _ _ _ Hid Hd) in Hidx. simpl in Hidx.
    by rewrite Send_idx in Hidx.
  - intros T b1 b2 b3 b4 b5 HT H1 H2 H3 H4 H5 r0 w h.
    pose proof (five_seconds_sends T b1 b2 b3 b4 b5 HT H1 H2 H3 H4 H5) as Hc.
    split; [|exact Hc].
    apply (f_equal length) in Hc. by rewrite length_fmap in Hc.
Qed.

Lemma rotation_boundary_witness :
  let T := no_failure in
  let r0 := New 2000000000 2 (Float32.of_int 4) in
  let b := repeat (S754_zero false) 8 in
  let h := {| Header := Some {| NumChannels := 2; SampleRate := Float32.of_int 4 |};
              Sample := [] |} in
  let r1 := {| currentStream := Some 0%nat; currentFrames := 8; numChannels := 2;
               sampleRate := Float32.of_int 4; maxLength := 2000000000 |} in
  let s1 := {| sends := [(h, None); ({| Header := None; Sample := b |}, None)];
               closeSends := [] |} in
  let w1 := {| idx := 1; streams := [s1] |} in
  let m := repeat (S754_zero false) (Z.to_nat 11025) in
  Process T r0 b (r0, net0) = (r1, w1) /\
  streams (Process T r0 b (r1, w1)).2 !! 0%nat =
    Some {| sends := [(h, None); ({| Header := None; Sample := b |}, None);
                      ({| Header := None; Sample := b |}, None)];
            closeSends := [] |} /\
  idx (Process T r0 b (r1, w1)).2 = idx w1 /\
  idx (Process T r0 b (r0, net0)).2 <> idx net0 /\
  length (streams (feed (Process T (New 2000000000 1 (Float32.of_int 11025)))
                     [m; m; m; m; m]
                     (New 2000000000 1 (Float32.of_int 11025), net0)).2) = 3%nat.
Proof.
  intros T r0 b h r1 s1 w1 m.
  assert (wrap64 (Float32.to_int64
                    (Float32.div
                       (Float32.of_int (wrap64 (currentFrames r1 + Z.of_nat (length b))))
                       (Float32.mul (sampleRate r0) (Float32.of_int (numChannels r0))))
                  * 1000000000) = maxLength r1) as Hd
    by (vm_compute; reflexivity).
  assert (idx (Process T r0 b (r0, net0)).2 <> idx net0) as Hi
    by (vm_compute; discriminate).
  assert (Z.of_nat (length m) = 11025) as Hm by (vm_compute; reflexivity).
  pose proof (proj1 rotation_boundary T r0 b r1 w1 0%nat s1 eq_refl eq_refl Hd)
    as (Hidx & _ & _ & _ & Hsends).
  split; [vm_compute; reflexivity|].
  split; [exact Hsends|].
  split; [exact Hidx|].
  split; [exact Hi|].
  pose proof (proj1 (proj2 rotation_boundary) T r0 b r0 net0 Hi) as _.
  exact (proj1 (proj2 (proj2 rotation_boundary) T m m m m m
                 (conj (fun _ => eq_refl) (fun _ _ => eq_refl)) Hm Hm Hm Hm Hm)).
Defined.

(** C5, as the specification states it, fails: at 2 Hz mono with buffers of
    two samples (one second each) and [maxLength] 2.5 s, five buffers (five
    seconds) open three streams, and [ceil(5 / 2.5)] is two. *)
Lemma rotation_count_counterexample :
  ~ rotation_count_by_duration no_failure 2500000000 1 2 2 5 1000000000.
Proof.
  intros H.
  specialize (H (conj (fun _ => eq_refl) (fun _ _ => eq_refl)) eq_refl).
  specialize (H ltac:(vm_compute; discriminate)
                (repeat [S754_zero false; S754_zero false] 5) eq_refl).
  specialize (H ltac:(repeat constructor)).
  vm_compute in H. discriminate H.
Qed.

(** C5, amended.  With constant-size buffers on a reliable transport, let
    [k >= 1] be the number of buffers that fit a stream by the callback's own
    test: the duration it computes for [j] buffers is at most [maxLength] for
    every [j <= k] and exceeds it for [k + 1].  Then [n] buffers open
    [ceil(n / k)] streams. *)
Theorem rotation_count (T : Transport) (M ch : Z) (sr : float32) (len k : nat)
    (bufs : list (list float32)) :
  let r0 := New M ch sr in
  reliable T ->
  (1 <= k)%nat ->
  Z.of_nat (S k) * Z.of_nat len <= max_int64 ->
  (forall j : nat, (1 <= j <= k)%nat ->
     duration (div_of r0) (Z.of_nat j * Z.of_nat len) <= M) ->
  M < duration (div_of r0) (Z.of_nat (S k) * Z.of_nat len) ->
  Forall (fun b => length b = len) bufs ->
  Z.of_nat (opened (feed (Process T r0) bufs (r0, net0)).2) =
  ceil_div (Z.of_nat (length bufs)) (Z.of_nat k).
Proof.
  intros r0 HT Hk Hmax Hfit Hover Hbufs.
  assert (chunk_state r0 k (Z.of_nat len) (length bufs) (feed (Process T r0) bufs (r0, net0)))
    as [_ Hst].
  { apply feed_chunk_state; try done; try lia.
    eapply list.Forall_impl; [exact Hbufs|]. by intros b ->. }
  destruct (length bufs) as [|n] eqn:Hn.
  - destruct Hst as [_ Hnil]. unfold opened. rewrite Hnil. simpl.
    unfold ceil_div. rewrite Z.div_small; lia.
  - destruct Hst as (q & j & Hj & Hqj & Hlen & _). unfold opened. rewrite Hlen, Hqj.
    by rewrite ceil_div_chunks.
Qed.

Lemma rotation_count_witness :
  Z.of_nat (opened (feed (Process no_failure (New 2500000000 1 (Float32.of_int 2)))
                      (repeat [S754_zero false; S754_zero false] 5)
                      (New 2500000000 1 (Float32.of_int 2), net0)).2) =
  ceil_div 5 2.
Proof.
  apply (rotation_count no_failure 2500000000 1 (Float32.of_int 2) 2 2
           (repeat [S754_zero false; S754_zero false] 5)).
  - by split.
  - lia.
  - vm_compute. discriminate.
  - intros [|[|[|j]]] Hj; try lia; vm_compute; discriminate.
  - vm_compute. reflexivity.
  - repeat constructor.
Defined.

(** C6.  The header send fails on the first stream; the next buffer is then
    sent on that stream.  Evaluated at 2 Hz mono, [maxLength] two seconds, two
    buffers of one second: the first buffer is dropped, but the chunker still
    holds stream 0, [client.Record] is not called again, and the second
    buffer goes through on a stream whose header never did. *)
Theorem header_failure_keeps_stream :
  let r0 := New (2 * Second) 1 (Float32.of_int 2) in
  let b1 := [Float32.of_int 1; Float32.of_int 2] in
  let b2 := [Float32.of_int 3; Float32.of_int 4] in
  let st1 := Process header_lost r0 b1 (r0, net0) in
  let st2 := Process header_lost r0 b2 st1 in
  streams st1.2 = [ {| sends := [(header_request r0, Some (ErrSend 0 0))];
                       closeSends := [] |} ] /\
  currentStream st1.1 = Some 0%nat /\
  idx st1.2 = 1%nat /\ idx st2.2 = 1%nat /\
  carried st2.2 = [[sample_request b2]].
Proof. vm_compute. repeat split; reflexivity. Qed.

(** The sibling path: when the stream cannot be opened the chunker holds no
    stream, and the next buffer calls [client.Record] again and goes through
    behind a header. *)
Lemma open_failure_retries :
  let r0 := New (2 * Second) 1 (Float32.of_int 2) in
  let b1 := [Float32.of_int 1; Float32.of_int 2] in
  let b2 := [Float32.of_int 3; Float32.of_int 4] in
  let st1 := Process open_refused r0 b1 (r0, net0) in
  let st2 := Process open_refused r0 b2 st1 in
  currentStream st1.1 = None /\ streams st1.2 = [] /\
  idx st1.2 = 1%nat /\ idx st2.2 = 2%nat /\
  carried st2.2 = [[header_request r0; sample_request b2]].
Proof. vm_compute. repeat split; reflexivity. Qed.

(** C8, as the specification states it, fails: after one buffer has opened a
    stream, the second [Close] calls [CloseSend] on that stream again. *)
Lemma second_Close_counterexample :
  let r0 := New (2 * Second) 1 (Float32.of_int 2) in
  let st := Process no_failure r0 [Float32.of_int 1; Float32.of_int 2] (r0, net0) in
  ~ second_Close_is_noop no_failure st.1 st.2.
Proof. vm_compute. intros [_ H]. discriminate H. Qed.

(** C8, amended.  [Close] with no stream open returns nil and calls nothing
    on the transport.  [Close] with a stream open calls [CloseSend] on it,
    returns what that call returns, resets the frame counter and keeps the
    stream; so a second [Close] calls [CloseSend] on the same stream a second
    time and returns the result of that second call. *)
Theorem Close_twice (T : Transport) (r : R) (w : Net) :
  (currentStream r = None -> Close T r w = (None, set_currentFrames 0 r, w)) /\
  (forall id s,
     currentStream r = Some id -> streams w !! id = Some s ->
     let e1 := closeSend_err T id (length (closeSends s)) in
     let e2 := closeSend_err T id (S (length (closeSends s))) in
     let r1 := set_currentFrames 0 r in
     let w1 := {| idx := idx w;
                  streams := <[ id := {| sends := sends s;
                                         closeSends := closeSends s ++ [e1] |} ]> (streams w) |} in
     let w2 := {| idx := idx w;
                  streams := <[ id := {| sends := sends s;
                                         closeSends := closeSends s ++ [e1; e2] |} ]> (streams w) |} in
     Close T r w = (e1, r1, w1) /\ Close T r1 w1 = (e2, r1, w2)).
Proof.
  split.
  - intros Hn. unfold Close, closeCurrentStream. simpl. by rewrite Hn.
  - intros id s Hid Hs e1 e2 r1 w1 w2. split.
    + unfold Close, closeCurrentStream, CloseSend. simpl. by rewrite Hid, Hs.
    + unfold Close, closeCurrentStream, CloseSend. simpl. rewrite Hid.
      rewrite list_lookup_insert_eq by (by eapply lookup_lt_Some). simpl.
      rewrite list_insert_insert_eq, length_app, Nat.add_1_r, <- app_assoc. done.
Qed.

Lemma Close_twice_witness :
  let r0 := New (2 * Second) 1 (Float32.of_int 2) in
  let b := [Float32.of_int 1; Float32.of_int 2] in
  let s := {| sends := [(header_request r0, None); (sample_request b, None)];
              closeSends := [] |} in
  let r := {| currentStream := Some 0%nat; currentFrames := 2; numChannels := 1;
              sampleRate := Float32.of_int 2; maxLength := 2 * Second |} in
  let w := {| idx := 1; streams := [s] |} in
  let s2 := {| sends := sends s; closeSends := [None; None] |} in
  Process no_failure r0 b (r0, net0) = (r, w) /\
  Close no_failure r0 net0 = (None, r0, net0) /\
  Close no_failure (set_currentFrames 0 r)
    {| idx := 1; streams := [ {| sends := sends s; closeSends := [None] |} ] |} =
  (None, set_currentFrames 0 r, {| idx := 1; streams := [s2] |}).
Proof.
  intros r0 b s r w s2.
  split; [vm_compute; reflexivity|]. split.
  - exact (proj1 (Close_twice no_failure r0 net0) eq_refl).
  - exact (proj2 (proj2 (Close_twice no_failure r w) 0%nat s eq_refl eq_refl)).
Defined.

End ClientClaims.

(** * Facts about the server *)

Section ServerFacts.

Import server.

Variable L : Sndfile.

Lemma WriteFrames_last f block o pre x :
  f = length pre ->
  WriteFrames L f block {| opens := o; files := pre ++ [x] |} =
  (write_err L f (length (writes x)),
   {| opens := o;
      files := pre ++ [ {| path := path x; info := info x;
                           writes := writes x ++ [(block, write_err L f (length (writes x)))];
                           closes := closes x |} ] |}).
Proof.
  intros ->. unfold WriteFrames. simpl. rewrite list_lookup_middle by done.
  rewrite insert_app_r_alt by done. by rewrite Nat.sub_diag.
Qed.

Lemma FileClose_last f o pre x :
  f = length pre ->
  FileClose L f {| opens := o; files := pre ++ [x] |} =
  (close_err L f (length (closes x)),
   {| opens := o;
      files := pre ++ [ {| path := path x; info := info x; writes := writes x;
                           closes := closes x ++ [close_err L f (length (closes x))] |} ] |}).
Proof.
  intros ->. unfold FileClose. simpl. rewrite list_lookup_middle by done.
  rewrite insert_app_r_alt by done. by rewrite Nat.sub_diag.
Qed.

(** The loop once the file is there: it keeps the file, touches nothing but
    the file's writes, and, when no write fails, runs to the end of the
    stream and writes every non-empty block. *)
Lemma Record_loop_Some msgs s o pre x :
  exists err x',
    Record_loop L (Some (length pre)) msgs s {| opens := o; files := pre ++ [x] |} =
      (Some (length pre), err, s, {| opens := o; files := pre ++ [x'] |}) /\
    path x' = path x /\ info x' = info x /\ closes x' = closes x /\
    ((forall k, write_err L (length pre) k = None) ->
     err = None /\
     writes x' = writes x ++ ((fun b => (b, None)) <$> blocks msgs)).
Proof.
  revert x. induction msgs as [|m rest IH]; intros x.
  - exists None, x. do 4 (split; [done|]). intros _. split; [done|].
    unfold blocks. simpl. by rewrite app_nil_r.
  - cbn [Record_loop]. unfold GetSample, blocks. rewrite fmap_cons, filter_cons.
    destruct (Sample m) as [|v vs] eqn:Hm.
    + simpl (0 <? _)%nat. cbv iota.
      rewrite decide_False by (intros H; by apply H).
      destruct (IH x) as (err & x' & Hloop & IHrest). by exists err, x'.
    + simpl (0 <? _)%nat. cbv iota.
      rewrite decide_True by done.
      rewrite WriteFrames_last by done.
      destruct (write_err L (length pre) (length (writes x))) as [e|] eqn:He.
      * eexists (Some e), _. do 4 (split; [done|]).
        intros Hok. by rewrite Hok in He.
      * destruct (IH {| path := path x; info := info x;
                        writes := writes x ++ [(v :: vs, None)];
                        closes := closes x |}) as (err & x' & Hloop & Hp & Hi & Hc & Hw).
        exists err, x'. do 4 (split; [done|]).
        intros Hok. destruct (Hw Hok) as [-> ->]. split; [done|]. simpl.
        by rewrite <- app_assoc.
Qed.

(** [sndfile.Open] refuses: [Record] returns the error, no file is there. *)
Lemma Record_first_refused m rest s d e :
  open_err L (length (opens d)) (next_name L s d) (first_info m) = Some e ->
  Record L (m :: rest) s d =
  (Some e, bump s,
   {| opens := opens d ++ [(next_name L s d, first_info m, Some e)]; files := files d |}).
Proof.
  intros He. unfold Record. cbn [Record_loop]. unfold newRecording, Open.
  fold (first_info m). fold (next_name L s d). by rewrite He.
Qed.

(** [sndfile.Open] succeeds: one file is added, it is closed once, and when
    no write fails [Record] returns nil with every non-empty block written. *)
Lemma Record_first_opened m rest s d :
  open_err L (length (opens d)) (next_name L s d) (first_info m) = None ->
  exists err x,
    Record L (m :: rest) s d =
      (err, bump s,
       {| opens := opens d ++ [(next_name L s d, first_info m, None)];
          files := files d ++ [x] |}) /\
    path x = next_name L s d /\ info x = first_info m /\
    closes x = [close_err L (length (files d)) 0] /\
    ((forall k, write_err L (length (files d)) k = None) ->
     err = None /\ writes x = (fun b => (b, None)) <$> blocks (m :: rest)).
Proof.
  intros He.
  destruct (Record_loop_Some (m :: rest) (bump s)
              (opens d ++ [(next_name L s d, first_info m, None)]) (files d)
              {| path := next_name L s d; info := first_info m; writes := []; closes := [] |})
    as (err & x & Hloop & Hp & Hi & Hc & Hw).
  exists err, {| path := path x; info := info x; writes := writes x;
                 closes := closes x ++ [close_err L (length (files d)) (length (closes x))] |}.
  split.
  - unfold Record. cbn [Record_loop] in Hloop |- *. unfold newRecording, Open.
    fold (first_info m). fold (next_name L s d). rewrite He. cbv iota beta.
    fold (bump s). rewrite Hloop. by rewrite FileClose_last.
  - simpl. rewrite Hp, Hi, Hc. do 3 (split; [done|]). exact Hw.
Qed.

Lemma concat_blocks msgs : concat (blocks msgs) = concat (Sample <$> msgs).
Proof.
  unfold blocks. induction msgs as [|m rest IH]; [done|].
  rewrite fmap_cons, filter_cons. destruct (Sample m) as [|v vs].
  - rewrite decide_False by (intros H; by apply H). done.
  - rewrite decide_True by done. simpl. by rewrite IH.
Qed.

Lemma frames_all_written path info (bs : list (list float32)) closes :
  frames {| server.path := path; server.info := info;
            writes := (fun b => (b, None)) <$> bs; server.closes := closes |} = concat bs.
Proof.
  unfold frames. simpl. f_equal. induction bs as [|b bs IH]; [done|].
  rewrite fmap_cons, filter_cons_True, fmap_cons by done. cbn [fst]. by rewrite IH.
Qed.

(** *** [newRecording] *)

Lemma newRecording_state ch sr s d :
  (newRecording L ch sr s d).1.2 = bump s /\
  length (opens (newRecording L ch sr s d).2) = S (length (opens d)) /\
  opened_names (newRecording L ch sr s d).2 = opened_names d ++ [next_name L s d] /\
  (created_names (newRecording L ch sr s d).2 = created_names d \/
   created_names (newRecording L ch sr s d).2 = created_names d ++ [next_name L s d]).
Proof.
  unfold newRecording, Open. fold (next_name L s d).
  destruct (open_err L _ _ _); simpl; unfold opened_names, created_names; simpl;
    rewrite !fmap_app, length_app, Nat.add_1_r; auto.
Qed.

Lemma seq_number_sorted s (ks : list nat) j n :
  sublist ks (seq j n) ->
  StronglySorted Z.lt (seq_number s <$> ks) /\ Forall (fun k => (j <= k)%nat) ks.
Proof.
  revert j ks. induction n as [|n IH]; intros j ks Hks; simpl in Hks.
  - inversion Hks; subst. split; constructor.
  - inversion Hks as [|x l1 l2 Hl|x l1 l2 Hl]; subst.
    + destruct (IH _ _ Hl) as [Hs Hall]. split.
      * rewrite fmap_cons. constructor; [done|].
        apply Forall_fmap. eapply list.Forall_impl; [exact Hall|].
        intros k Hk. unfold seq_number. simpl in *. lia.
      * constructor; [lia|]. eapply list.Forall_impl; [exact Hall|].
        intros k Hk. simpl in Hk. lia.
    + destruct (IH _ _ Hl) as [Hs Hall]. split; [done|].
      eapply list.Forall_impl; [exact Hall|]. intros k Hk. simpl in Hk. lia.
Qed.

Lemma seq_number_inj s : Inj (=) (=) (seq_number s).
Proof. intros x y H. unfold seq_number in H. lia. Qed.

Lemma newRecordings_names calls s d :
  min_int64 <= numClients s ->
  numClients s + Z.of_nat (length calls) <= max_int64 ->
  numClients (newRecordings L calls s d).1 = numClients s + Z.of_nat (length calls) /\
  opened_names (newRecordings L calls s d).2 =
    opened_names d ++ (nth_name L s d <$> seq 0 (length calls)) /\
  exists ks, sublist ks (seq 0 (length calls)) /\
    created_names (newRecordings L calls s d).2 =
      created_names d ++ (nth_name L s d <$> ks).
Proof.
  revert s d. induction calls as [|[ch sr] rest IH]; intros s d Hmin Hmax.
  - simpl. split; [lia|]. split; [by rewrite app_nil_r|].
    exists []. split; [constructor | by rewrite app_nil_r].
  - cbn [newRecordings length]. cbn [length] in Hmax.
    destruct (newRecording_state ch sr s d) as (Hs & Hlen & Hon & Hcn).
    destruct (newRecording L ch sr s d) as [[res s1] d1]. simpl in Hs, Hlen, Hon, Hcn.
    subst s1.
    assert (numClients (bump s) = numClients s + 1) as Hb.
    { unfold bump. simpl. apply wrap64_small. unfold min_int64, max_int64 in *. lia. }
    destruct (IH (bump s) d1) as (Hn & Ho & ks & Hks & Hc); [lia | lia |].
    assert (forall k, nth_name L (bump s) d1 k = nth_name L s d (S k)) as Hshift.
    { intros k. unfold nth_name, seq_number. rewrite Hlen, Hb. simpl prefix.
      replace (S (length (opens d)) + k)%nat with (length (opens d) + S k)%nat by lia.
      by replace (numClients s + 1 + Z.of_nat k) with (numClients s + Z.of_nat (S k)) by lia. }
    assert (next_name L s d = nth_name L s d 0) as Hzero.
    { unfold next_name, nth_name, seq_number.
      by rewrite Nat.add_0_r, Z.add_0_r. }
    assert (forall l : list nat,
              nth_name L (bump s) d1 <$> l = nth_name L s d <$> (S <$> l)) as Hmap.
    { intros l. rewrite <- list_fmap_compose. apply list_fmap_ext. intros ? k _. apply Hshift. }
    split; [lia|]. split.
    + rewrite Ho, Hon, Hzero, Hmap, fmap_S_seq, <- app_assoc. done.
    + destruct Hcn as [Hcn|Hcn].
      * exists (S <$> ks). split.
        -- simpl. apply sublist_cons. rewrite <- fmap_S_seq. by apply fmap_sublist.
        -- by rewrite Hc, Hcn, Hmap.
      * exists (0%nat :: (S <$> ks)). split.
        -- simpl. apply sublist_skip. rewrite <- fmap_S_seq. by apply fmap_sublist.
        -- by rewrite Hc, Hcn, Hmap, Hzero, <- app_assoc.
Qed.

End ServerFacts.

(** * The server's claims *)

Section ServerClaims.

Import server.

(** C3, as the specification states it, fails: a stream that ends before
    any message is received creates no file. *)
Lemma file_per_stream_counterexample :
  ~ one_file_always no_failure [] server0 disk0.
Proof. intros [f [H _]]. vm_compute in H. discriminate H. Qed.

(** C3, amended.  A stream on which no message is received creates no file.
    On a stream with at least one message, when the file can be opened and no
    write fails, [Record] creates exactly one file, the calls of
    [WriteFrames] on it are the non-empty sample payloads of the messages in
    receive order (an empty payload causes no write), so the frames in the
    file are the concatenation of the payloads, and [Record] returns nil. *)
Theorem file_per_stream (L : Sndfile) (m : RecordRequest) (rest : list RecordRequest)
    (s : t) (d : Disk) :
  open_err L (length (opens d)) (next_name L s d) (first_info m) = None ->
  (forall k, write_err L (length (files d)) k = None) ->
  Record L [] s d = (None, s, d) /\
  exists x,
    files (Record L (m :: rest) s d).2 = files d ++ [x] /\
    (writes x).*1 = blocks (m :: rest) /\
    frames x = concat (Sample <$> (m :: rest)) /\
    (Record L (m :: rest) s d).1.1 = None.
Proof.
  intros Ho Hw. split; [done|].
  destruct (Record_first_opened L m rest s d Ho) as (err & x & HR & Hp & Hi & Hc & Hx).
  destruct (Hx Hw) as [-> Hwr].
  exists x. rewrite HR. simpl. split; [done|].
  assert ((writes x).*1 = blocks (m :: rest)) as Hb.
  { rewrite Hwr, <- list_fmap_compose. apply list_fmap_id. }
  split; [done|]. split; [|done].
  destruct x as [p i ws cs]. simpl in Hwr. subst ws.
  by rewrite frames_all_written, concat_blocks.
Qed.

Lemma file_per_stream_witness :
  let m1 := {| Header := Some {| NumChannels := 1; SampleRate := Float32.of_int 11025 |};
               Sample := [] |} in
  let m2 := {| Header := None; Sample := [Float32.of_int 1; Float32.of_int 2] |} in
  let m3 := {| Header := None; Sample := [] |} in
  let m4 := {| Header := None; Sample := [Float32.of_int 3] |} in
  exists x,
    files (Record no_failure [m1; m2; m3; m4] server0 disk0).2 = files disk0 ++ [x] /\
    (writes x).*1 = blocks [m1; m2; m3; m4] /\
    frames x = concat (Sample <$> [m1; m2; m3; m4]) /\
    (Record no_failure [m1; m2; m3; m4] server0 disk0).1.1 = None.
Proof.
  intros m1 m2 m3 m4.
  exact (proj2 (file_per_stream no_failure m1 [m2; m3; m4] server0 disk0
                  eq_refl (fun _ => eq_refl))).
Defined.

(** C7, as the specification states it, fails: [Record] does not look at
    the header.  With a library that opens the file, a first message without
    a header, and one whose header has sample rate zero, both get a file and
    no error. *)
Lemma malformed_first_counterexample :
  let m1 := {| Header := None; Sample := [Float32.of_int 1] |} in
  let m2 := {| Header := Some {| NumChannels := 1; SampleRate := S754_zero false |};
               Sample := [Float32.of_int 1] |} in
  (malformed_first m1 /\ ~ rejected no_failure [m1] server0 disk0) /\
  (malformed_first m2 /\ ~ rejected no_failure [m2] server0 disk0).
Proof.
  intros m1 m2. split; (split; [vm_compute; auto |]).
  - intros [H _]. vm_compute in H. by apply H.
  - intros [H _]. vm_compute in H. by apply H.
Qed.

(** C7, amended.  [Record] opens the output file with whatever the first
    message carries: the channel count and the sample rate (converted to
    [int32]) of its header, zero for both when there is no header.  It calls
    [sndfile.Open] exactly once; when that call fails [Record] returns its
    error and no file is created, and when it succeeds a file is created. *)
Theorem first_message_opens_file (L : Sndfile) (m : RecordRequest)
    (rest : list RecordRequest) (s : t) (d : Disk) :
  let res := open_err L (length (opens d)) (next_name L s d) (first_info m) in
  opens (Record L (m :: rest) s d).2 = opens d ++ [(next_name L s d, first_info m, res)] /\
  match res with
  | Some e =>
      (Record L (m :: rest) s d).1.1 = Some e /\
      files (Record L (m :: rest) s d).2 = files d
  | None =>
      exists x, files (Record L (m :: rest) s d).2 = files d ++ [x] /\
                info x = first_info m
  end /\
  (forall smp, first_info {| Header := None; Sample := smp |} =
               {| Channels := 0; Samplerate := 0;
                  Format := Z.lor SF_FORMAT_WAV SF_FORMAT_PCM_16 |}).
Proof.
  intros res. subst res.
  destruct (open_err L (length (opens d)) (next_name L s d) (first_info m)) as [e|] eqn:He.
  - rewrite (Record_first_refused L m rest s d e He). by simpl.
  - destruct (Record_first_opened L m rest s d He) as (err & x & HR & Hp & Hi & _).
    rewrite HR. simpl. split; [done|]. split; [|done]. by exists x.
Qed.

(** C9, as the specification states it, fails: the stream ends, the file is
    closed, the close fails, and [Record] returns nil. *)
Lemma close_error_counterexample :
  let m := {| Header := Some {| NumChannels := 1; SampleRate := Float32.of_int 11025 |};
              Sample := [Float32.of_int 1] |} in
  ~ returns_close_error close_fails [m] server0 disk0.
Proof.
  intros m H.
  specialize (H {| path := "rec-2019-03-01-12-00-00-000.wav";
                   info := first_info m;
                   writes := [([Float32.of_int 1], None)];
                   closes := [Some (ErrClose 0 0)] |} (ErrClose 0 0) eq_refl).
  specialize (H ltac:(by left)).
  vm_compute in H. discriminate H.
Qed.

(** C9, amended.  When [Record] created the output file and the receive loop
    ran to the end of the stream, the file is closed exactly once, and
    [Record] returns nil whatever that close returned: the result of the
    deferred [Close] is dropped. *)
Theorem file_closed_result_dropped (L : Sndfile) (m : RecordRequest)
    (rest : list RecordRequest) (s : t) (d : Disk) :
  open_err L (length (opens d)) (next_name L s d) (first_info m) = None ->
  (forall k, write_err L (length (files d)) k = None) ->
  exists x,
    files (Record L (m :: rest) s d).2 !! length (files d) = Some x /\
    closes x = [close_err L (length (files d)) 0] /\
    (Record L (m :: rest) s d).1.1 = None.
Proof.
  intros Ho Hw.
  destruct (Record_first_opened L m rest s d Ho) as (err & x & HR & Hp & Hi & Hc & Hx).
  destruct (Hx Hw) as [-> _].
  exists x. rewrite HR. simpl. split; [|done]. by apply list_lookup_middle.
Qed.

Lemma file_closed_result_dropped_witness :
  let m := {| Header := Some {| NumChannels := 1; SampleRate := Float32.of_int 11025 |};
              Sample := [Float32.of_int 1] |} in
  exists x,
    files (Record close_fails [m] server0 disk0).2 !! 0%nat = Some x /\
    closes x = [Some (ErrClose 0 0)] /\
    (Record close_fails [m] server0 disk0).1.1 = None.
Proof.
  intros m.
  exact (file_closed_result_dropped close_fails m [] server0 disk0
           eq_refl (fun _ => eq_refl)).
Defined.

(** C10.  On one server value, as long as the counter does not overflow,
    every call of [newRecording] adds exactly one to [numClients], whether
    [sndfile.Open] succeeds or not; the name given to the [k]-th call carries
    the sequence number [numClients + k]; and the sequence numbers in the
    names of the files created are strictly increasing, hence pairwise
    distinct (with gaps where an open failed). *)
Theorem sequence_numbers (L : Sndfile) (calls : list (Z * Z)) (s : t) (d : Disk) :
  min_int64 <= numClients s ->
  numClients s + Z.of_nat (length calls) <= max_int64 ->
  (forall k, (k <= length calls)%nat ->
     numClients (newRecordings L (take k calls) s d).1 = numClients s + Z.of_nat k) /\
  opened_names (newRecordings L calls s d).2 =
    opened_names d ++ (nth_name L s d <$> seq 0 (length calls)) /\
  exists ks,
    sublist ks (seq 0 (length calls)) /\
    created_names (newRecordings L calls s d).2 =
      created_names d ++ (nth_name L s d <$> ks) /\
    StronglySorted Z.lt (seq_number s <$> ks) /\
    NoDup (seq_number s <$> ks).
Proof.
  intros Hmin Hmax. split; [|].
  - intros k Hk.
    destruct (newRecordings_names L (take k calls) s d) as (Hn & _); [done| |].
    + rewrite length_take. lia.
    + rewrite Hn, length_take. f_equal. lia.
  - destruct (newRecordings_names L calls s d Hmin Hmax) as (_ & Ho & ks & Hks & Hc).
    split; [done|]. exists ks. split; [done|]. split; [done|]. split.
    + by destruct (seq_number_sorted s ks 0 (length calls) Hks).
    + pose proof (seq_number_inj s) as Hinj. apply (NoDup_fmap_2 (seq_number s)).
      eapply sublist_NoDup; [apply NoDup_seq | exact Hks].
Qed.

Lemma sequence_numbers_witness :
  let L := {| open_err := fun n _ _ => match n with 1%nat => Some (ErrOpen 1) | _ => None end;
              write_err := fun _ _ => None;
              close_err := fun _ _ => None;
              timestamp := fun _ => "2019-03-01-12-00-00"%string |} in
  let calls := [(1, 11025); (1, 11025); (2, 44100)] in
  numClients (newRecordings L calls server0 disk0).1 = 3 /\
  opened_names (newRecordings L calls server0 disk0).2 =
    ["rec-2019-03-01-12-00-00-000.wav"; "rec-2019-03-01-12-00-00-001.wav";
     "rec-2019-03-01-12-00-00-002.wav"]%string /\
  created_names (newRecordings L calls server0 disk0).2 =
    ["rec-2019-03-01-12-00-00-000.wav"; "rec-2019-03-01-12-00-00-002.wav"]%string.
Proof.
  intros L calls.
  destruct (sequence_numbers L calls server0 disk0) as (Hn & Ho & _).
  - vm_compute. discriminate.
  - vm_compute. discriminate.
  - split; [exact (Hn 3%nat (le_n 3))|]. split; [exact Ho|]. vm_compute. reflexivity.
Defined.

End ServerClaims.

(** * More about the chunker *)

Section ChunkerSteps.

Import recorder chunker.

Variable T : Transport.

Lemma wrap64_add_l a b : wrap64 (wrap64 a + b) = wrap64 (a + b).
Proof.
  unfold wrap64, wrap. f_equal.
  replace ((a + 2 ^ (64 - 1)) mod 2 ^ 64 - 2 ^ (64 - 1) + b + 2 ^ (64 - 1))
    with ((a + 2 ^ (64 - 1)) mod 2 ^ 64 + b) by lia.
  rewrite Zplus_mod_idemp_l. f_equal. lia.
Qed.

Lemma wrap64_0 : wrap64 0 = 0.
Proof. reflexivity. Qed.

Lemma closeCurrentStream_closes r w :
  current_is_last r w ->
  closes_current T r (streams w) (streams (closeCurrentStream T r w).2).
Proof.
  intros Hlast. unfold closeCurrentStream. simpl.
  destruct (currentStream r) as [id|] eqn:Hid; [|by constructor].
  unfold current_is_last in Hlast. rewrite Hid in Hlast.
  destruct (snoc_of_length (streams w) id) as (pre & s & Hw & Hpre); [done|].
  subst id. unfold CloseSend. rewrite Hw, list_lookup_middle by done. simpl.
  rewrite insert_app_r_alt, Nat.sub_diag by done. simpl.
  by apply closes_last.
Qed.

Lemma closes_current_length r l l1 :
  closes_current T r l l1 -> length l1 = length l.
Proof. destruct 1; [done|]. by rewrite !length_app. Qed.

(** The callback of [Process] takes one of the four steps. *)
Lemma Process_step r0 buf r w :
  current_is_last r w ->
  callback_step T r0 buf (r, w) (Process T r0 buf (r, w)).
Proof.
  intros Hlast.
  pose proof (closeCurrentStream_closes r w Hlast) as Hcl.
  pose proof (closes_current_length _ _ _ Hcl) as HL.
  assert (currentStream r = None \/
          maxLength r < projected (div_of r0) r (Z.of_nat (length buf)) ->
          callback_step T r0 buf (r, w) (Process T r0 buf (r, w))) as Hrot.
  { intros Hrot. rewrite Process_rotate by done. cbv zeta.
    destruct (record_err T (idx w)) as [e|] eqn:He.
    - by eapply step_open_failed.
    - rewrite (Send_last _ _ _ _ (streams (closeCurrentStream T r w).2)) by done.
      cbn [sends length]. rewrite <- HL.
      destruct (send_err T (length (streams (closeCurrentStream T r w).2)) 0)
        as [e|] eqn:Hh.
      + rewrite app_nil_l. by eapply step_header_failed.
      + rewrite (Send_last _ _ _ _ (streams (closeCurrentStream T r w).2)) by done.
        cbn [sends length snd app]. by eapply step_rotated. }
  destruct (currentStream r) as [id|] eqn:Hid; [|by apply Hrot; left].
  destruct (Z_le_gt_dec (projected (div_of r0) r (Z.of_nat (length buf))) (maxLength r))
    as [Hd|Hd]; [|apply Hrot; right; lia].
  unfold current_is_last in Hlast. rewrite Hid in Hlast.
  destruct (snoc_of_length (streams w) id) as (pre & s & Hw & Hpre); [done|].
  destruct w as [n l]. simpl in Hw. subst l id.
  rewrite (Process_keep _ _ _ _ _ _ Hid Hd), Send_last by done. simpl.
  by apply step_keep.
Qed.

(** *** Counting what a stream was handed *)

Lemma samples_sent_after_send s buf e :
  samples_sent (after_send s (sample_request buf) e) =
  samples_sent s + Z.of_nat (length buf).
Proof.
  unfold samples_sent, attempted. simpl.
  rewrite fmap_app, sample_payload_app, length_app. simpl.
  unfold sample_payload. simpl. rewrite app_nil_r. lia.
Qed.

Lemma buffers_sent_after_send s buf e :
  buffers_sent (after_send s (sample_request buf) e) = S (buffers_sent s).
Proof.
  unfold buffers_sent, attempted. simpl.
  rewrite fmap_app, list.filter_app, length_app. simpl. lia.
Qed.

Lemma within_maxLength_of_sends r0 s s' :
  sends s' = sends s -> within_maxLength r0 s -> within_maxLength r0 s'.
Proof.
  unfold within_maxLength, buffers_sent, samples_sent, attempted. by intros ->.
Qed.

(** *** What a step keeps *)

Lemma step_same_config r0 buf st st' :
  callback_step T r0 buf st st' -> same_config st'.1 st.1.
Proof. by destruct 1. Qed.

Lemma step_current_is_last r0 buf st st' :
  callback_step T r0 buf st st' -> current_is_last st'.1 st'.2.
Proof.
  destruct 1; unfold current_is_last; simpl; rewrite ?H; try done;
    rewrite length_app; simpl; lia.
Qed.

Lemma step_counts_current r0 buf st st' :
  counts_current st.1 st.2 ->
  callback_step T r0 buf st st' -> counts_current st'.1 st'.2.
Proof.
  intros Hc Hstep. destruct Hstep as [r n pre s Hid Hd|r w l1 e|r w l1 e|r w l1];
    simpl in *; intros id x Hcur Hx; simpl in *.
  - rewrite Hid in Hcur. injection Hcur as <-.
    rewrite list_lookup_middle in Hx by done. injection Hx as <-.
    destruct (Hc (length pre) s Hid) as [Hcl Hfr]; [by apply list_lookup_middle|].
    split; [done|]. by rewrite samples_sent_after_send, Hfr, wrap64_add_l.
  - done.
  - injection Hcur as <-. rewrite list_lookup_middle in Hx by done. by injection Hx as <-.
  - injection Hcur as <-. rewrite list_lookup_middle in Hx by done. injection Hx as <-.
    split; [done|]. unfold samples_sent, attempted, sample_payload. simpl.
    by rewrite app_nil_r.
Qed.

Lemma closes_current_all_closed r w l1 :
  counts_current r w -> others_closed r w ->
  closes_current T r (streams w) l1 ->
  forall id s, l1 !! id = Some s -> length (closeSends s) = 1%nat.
Proof.
  intros Hc Ho Hcl. inversion Hcl as [l Hnone|pre s Hid Hw]; subst.
  - intros id s Hs. apply (Ho id s Hs). by rewrite Hnone.
  - intros id x [[Hlt Hx]|[-> <-]]%lookup_snoc_Some.
    + apply (Ho id x).
      * rewrite <- Hw. by apply lookup_app_l_Some.
      * rewrite Hid. intros [= Heq]. lia.
    + destruct (Hc (length pre) s Hid) as [Hnil _].
      * rewrite <- Hw. by apply list_lookup_middle.
      * simpl. by rewrite Hnil.
Qed.

Lemma step_others_closed r0 buf st st' :
  counts_current st.1 st.2 -> others_closed st.1 st.2 ->
  callback_step T r0 buf st st' -> others_closed st'.1 st'.2.
Proof.
  intros Hc Ho Hstep.
  destruct Hstep as [r n pre s Hid Hd|r w l1 e Hrot Hcl|r w l1 e Hrot Hcl|r w l1 Hrot Hcl];
    simpl in *; intros id x Hx Hcur; simpl in *.
  - apply lookup_snoc_Some in Hx as [[Hlt Hx]|[-> _]]; [|by rewrite Hid in Hcur].
    apply (Ho id x); [by apply lookup_app_l_Some|].
    rewrite Hid. intros [= Heq]. lia.
  - by eapply closes_current_all_closed.
  - apply lookup_snoc_Some in Hx as [[Hlt Hx]|[-> _]]; [|done].
    by eapply closes_current_all_closed.
  - apply lookup_snoc_Some in Hx as [[Hlt Hx]|[-> _]]; [|done].
    by eapply closes_current_all_closed.
Qed.

Lemma closes_current_within r0 r l l1 :
  closes_current T r l l1 ->
  Forall (within_maxLength r0) l -> Forall (within_maxLength r0) l1.
Proof.
  destruct 1 as [|pre s Hid]; [done|].
  rewrite !Forall_app, !Forall_singleton. intros [Hpre Hs]. split; [done|].
  by eapply within_maxLength_of_sends.
Qed.

Lemma step_within_maxLength r0 buf st st' :
  same_config st.1 r0 -> counts_current st.1 st.2 ->
  Forall (within_maxLength r0) (streams st.2) ->
  callback_step T r0 buf st st' ->
  Forall (within_maxLength r0) (streams st'.2).
Proof.
  intros (_ & _ & HM) Hc Hall Hstep.
  destruct Hstep as [r n pre s Hid Hd|r w l1 e Hrot Hcl|r w l1 e Hrot Hcl|r w l1 Hrot Hcl];
    simpl in *.
  - apply Forall_app in Hall as [Hpre _]. apply Forall_app. split; [done|].
    apply Forall_singleton. right.
    destruct (Hc (length pre) s Hid) as [_ Hfr]; [by apply list_lookup_middle|].
    rewrite samples_sent_after_send, <- wrap64_add_l, <- Hfr, <- HM. exact Hd.
  - by eapply closes_current_within.
  - apply Forall_app. split; [by eapply closes_current_within|].
    apply Forall_singleton. left. unfold buffers_sent. simpl. lia.
  - apply Forall_app. split; [by eapply closes_current_within|].
    apply Forall_singleton. left. unfold buffers_sent. simpl. lia.
Qed.

Lemma step_opened_idx r0 buf st st' :
  (opened st.2 <= idx st.2)%nat ->
  callback_step T r0 buf st st' ->
  (opened st'.2 <= idx st'.2)%nat /\ (idx st'.2 <= S (idx st.2))%nat.
Proof.
  intros Hle Hstep.
  destruct Hstep as [r n pre s Hid Hd|r w l1 e Hrot Hcl|r w l1 e Hrot Hcl|r w l1 Hrot Hcl];
    unfold opened in *; simpl in *;
    try (apply closes_current_length in Hcl);
    rewrite ?length_app in *; simpl in *; lia.
Qed.

Lemma step_inv r0 buf st st' :
  chunker_inv r0 st -> callback_step T r0 buf st st' -> chunker_inv r0 st'.
Proof.
  intros (Hcfg & Hlast & Hc & Ho & Hw & Hi) Hstep.
  split.
  { destruct (step_same_config _ _ _ _ Hstep) as (? & ? & ?).
    destruct Hcfg as (? & ? & ?). repeat split; congruence. }
  split; [by eapply step_current_is_last|].
  split; [by eapply step_counts_current|].
  split; [by eapply step_others_closed|].
  split; [by eapply step_within_maxLength|].
  by eapply step_opened_idx.
Qed.

Lemma chunker_inv_New M ch sr : chunker_inv (New M ch sr) (New M ch sr, net0).
Proof.
  repeat split; done.
Qed.

Lemma feed_inv r0 bufs st :
  chunker_inv r0 st -> chunker_inv r0 (feed (Process T r0) bufs st).
Proof.
  revert st. induction bufs as [|b bs IH]; intros [r w] Hinv; [done|].
  rewrite feed_cons. apply IH. eapply step_inv; [done|].
  apply Process_step. by destruct Hinv as (_ & ? & _).
Qed.

(** *** Streams left behind *)

Lemma closes_current_lookup r l l1 id s :
  closes_current T r l l1 -> l !! id = Some s -> currentStream r <> Some id ->
  l1 !! id = Some s.
Proof.
  destruct 1 as [|pre x Hid]; [done|].
  intros [[Hlt Hs]|[-> _]]%lookup_snoc_Some Hcur; [|done].
  by apply lookup_app_l_Some.
Qed.

Lemma step_frozen r0 buf st st' id s :
  callback_step T r0 buf st st' ->
  streams st.2 !! id = Some s -> currentStream st.1 <> Some id ->
  streams st'.2 !! id = Some s /\ currentStream st'.1 <> Some id.
Proof.
  intros Hstep.
  destruct Hstep as [r n pre x Hid Hd|r w l1 e Hrot Hcl|r w l1 e Hrot Hcl|r w l1 Hrot Hcl];
    simpl; intros Hs Hcur.
  - apply lookup_snoc_Some in Hs as [[Hlt Hs]|[-> _]]; [|done].
    split; [by apply lookup_app_l_Some | done].
  - split; [by eapply closes_current_lookup | done].
  - pose proof (lookup_lt_Some _ _ _ Hs) as Hlt.
    pose proof (closes_current_length _ _ _ Hcl) as HL.
    split; [|intros [= Heq]; lia].
    apply lookup_app_l_Some. by eapply closes_current_lookup.
  - pose proof (lookup_lt_Some _ _ _ Hs) as Hlt.
    pose proof (closes_current_length _ _ _ Hcl) as HL.
    split; [|intros [= Heq]; lia].
    apply lookup_app_l_Some. by eapply closes_current_lookup.
Qed.

Lemma feed_frozen r0 bufs st id s :
  current_is_last st.1 st.2 ->
  streams st.2 !! id = Some s -> currentStream st.1 <> Some id ->
  streams (feed (Process T r0) bufs st).2 !! id = Some s.
Proof.
  revert st. induction bufs as [|b bs IH]; intros [r w] Hlast Hs Hcur; [done|].
  rewrite feed_cons.
  pose proof (Process_step r0 b r w Hlast) as Hstep.
  destruct (step_frozen _ _ _ _ _ _ Hstep Hs Hcur) as [Hs' Hcur'].
  apply IH; [by eapply step_current_is_last | done..].
Qed.

Lemma feed_app cb (bs bs' : list (list float32)) st :
  feed cb (bs ++ bs') st = feed cb bs' (feed cb bs st).
Proof. unfold feed. by rewrite fold_left_app. Qed.

(** *** Every buffer is handed to [Send] *)

Lemma closes_current_attempted r l l1 :
  closes_current T r l l1 -> attempted <$> l1 = attempted <$> l.
Proof. destruct 1; [done|]. by rewrite !fmap_app. Qed.

Lemma attempted_payload_snoc n n' l s :
  attempted_payload {| idx := n; streams := l ++ [s] |} =
  attempted_payload {| idx := n'; streams := l |} ++ sample_payload (attempted s).
Proof.
  unfold attempted_payload. simpl. rewrite fmap_app, concat_app, sample_payload_app.
  simpl. by rewrite app_nil_r.
Qed.

Lemma step_attempted_payload r0 buf st st' :
  headers_reliable T ->
  callback_step T r0 buf st st' ->
  attempted_payload st'.2 = attempted_payload st.2 ++ buf.
Proof.
  intros [Hrec Hhdr] Hstep.
  destruct Hstep as [r n pre x Hid Hd|r w l1 e Hrot Hcl He|r w l1 e Hrot Hcl _ He
                    |r w l1 Hrot Hcl]; simpl.
  - rewrite !(attempted_payload_snoc n n), <- app_assoc. f_equal.
    unfold attempted. simpl. rewrite fmap_app, sample_payload_app. f_equal.
    unfold sample_payload. simpl. by rewrite app_nil_r.
  - by rewrite Hrec in He.
  - by rewrite Hhdr in He.
  - rewrite (attempted_payload_snoc _ (idx w)). unfold attempted_payload at 1 2. simpl.
    rewrite (closes_current_attempted _ _ _ Hcl). f_equal.
    unfold sample_payload. simpl. by rewrite app_nil_r.
Qed.

Lemma feed_attempted_payload r0 bufs st :
  headers_reliable T -> current_is_last st.1 st.2 ->
  attempted_payload (feed (Process T r0) bufs st).2 =
  attempted_payload st.2 ++ concat bufs.
Proof.
  intros HT. revert st. induction bufs as [|b bs IH]; intros [r w] Hlast.
  - simpl. by rewrite app_nil_r.
  - rewrite feed_cons.
    pose proof (Process_step r0 b r w Hlast) as Hstep.
    rewrite IH by (by eapply step_current_is_last).
    rewrite (step_attempted_payload _ _ _ _ HT Hstep). simpl.
    by rewrite <- app_assoc.
Qed.

(** *** One call of [client.Record] per buffer at most *)

Lemma feed_idx_bound r0 bufs st :
  chunker_inv r0 st ->
  (idx (feed (Process T r0) bufs st).2 <= idx st.2 + length bufs)%nat.
Proof.
  revert st. induction bufs as [|b bs IH]; intros [r w] Hinv; [simpl; lia|].
  rewrite feed_cons.
  assert (callback_step T r0 b (r, w) (Process T r0 b (r, w))) as Hstep
    by (apply Process_step; by destruct Hinv as (_ & ? & _)).
  pose proof (step_inv _ _ _ _ Hinv Hstep) as Hinv'.
  destruct Hinv as (_ & _ & _ & _ & _ & Hle).
  destruct (step_opened_idx _ _ _ _ Hle Hstep) as [_ Hidx].
  specialize (IH _ Hinv'). simpl in *. lia.
Qed.

(** *** A divisor of zero *)

Lemma duration_zero_div sg frames : duration (S754_zero sg) frames = 0.
Proof.
  unfold duration, Float32.div, SFdiv.
  by destruct (Float32.of_int frames) as [?|?| |? ? ?].
Qed.

Lemma step_zero_div r0 buf sg st st' :
  div_of r0 = S754_zero sg -> 0 <= maxLength r0 -> same_config st.1 r0 ->
  (currentStream st.1 = None /\ streams st.2 = [] \/
   currentStream st.1 = Some 0%nat /\ length (streams st.2) = 1%nat) ->
  callback_step T r0 buf st st' ->
  currentStream st'.1 = None /\ streams st'.2 = [] \/
  currentStream st'.1 = Some 0%nat /\ length (streams st'.2) = 1%nat.
Proof.
  intros Hdiv HM (_ & _ & Hcfg) Hst Hstep.
  assert (forall r w, (r, w) = st ->
            currentStream r = None \/
            maxLength r < projected (div_of r0) r (Z.of_nat (length buf)) ->
            currentStream r = None /\ streams w = []) as Hrot.
  { intros r w <- [Hn|Hlt]; simpl in *.
    - destruct Hst as [Hst|[Hst _]]; [done | by rewrite Hst in Hn].
    - unfold projected in Hlt. rewrite Hdiv, duration_zero_div, Hcfg in Hlt. lia. }
  destruct Hstep as [r n pre x Hid Hd|r w l1 e Hr Hcl|r w l1 e Hr Hcl|r w l1 Hr Hcl]; simpl.
  - right. simpl in Hst. destruct Hst as [[Hst _]|Hst]; [by rewrite Hst in Hid|].
    destruct Hst as [Hst Hl]. split; [done|]. by rewrite length_app in *.
  - destruct (Hrot r w eq_refl Hr) as [Hn Hnil]. rewrite Hnil in Hcl.
    left. split; [done|]. inversion Hcl as [|pre s ? Hw]; [done|]. by destruct pre.
  - destruct (Hrot r w eq_refl Hr) as [Hn Hnil]. rewrite Hnil in Hcl.
    apply closes_current_length in Hcl. destruct l1; [|done]. by right.
  - destruct (Hrot r w eq_refl Hr) as [Hn Hnil]. rewrite Hnil in Hcl.
    apply closes_current_length in Hcl. destruct l1; [|done]. by right.
Qed.

(** *** Runs with calls of [Close] in between *)

Lemma apply_call_OnClose r0 st :
  apply_call T r0 st OnClose =
  (set_currentFrames 0 st.1, (closeCurrentStream T st.1 st.2).2).
Proof.
  unfold apply_call, Close.
  pose proof (closeCurrentStream_R T st.1 st.2) as HR.
  destruct (closeCurrentStream T st.1 st.2) as [[e r] w]. simpl in *. by subst r.
Qed.

Lemma apply_call_current_is_last r0 st c :
  current_is_last st.1 st.2 ->
  current_is_last (apply_call T r0 st c).1 (apply_call T r0 st c).2.
Proof.
  intros Hlast. destruct c as [buf|].
  - destruct st as [r w]. by apply Process_current_is_last.
  - rewrite apply_call_OnClose. unfold current_is_last in *. simpl.
    by rewrite closeCurrentStream_length.
Qed.

Lemma apply_call_frozen r0 st c id s :
  current_is_last st.1 st.2 ->
  streams st.2 !! id = Some s -> currentStream st.1 <> Some id ->
  streams (apply_call T r0 st c).2 !! id = Some s /\
  currentStream (apply_call T r0 st c).1 <> Some id.
Proof.
  intros Hlast Hs Hcur. destruct c as [buf|].
  - destruct st as [r w]. eapply step_frozen; [by apply Process_step | done..].
  - rewrite apply_call_OnClose. simpl. split; [|done].
    eapply closes_current_lookup; [by apply closeCurrentStream_closes | done..].
Qed.

Lemma run_current_is_last r0 calls st :
  current_is_last st.1 st.2 ->
  current_is_last (run T r0 calls st).1 (run T r0 calls st).2.
Proof.
  revert st. induction calls as [|c cs IH]; intros st Hlast; [done|].
  apply IH. by apply apply_call_current_is_last.
Qed.

Lemma run_frozen r0 calls st id s :
  current_is_last st.1 st.2 ->
  streams st.2 !! id = Some s -> currentStream st.1 <> Some id ->
  streams (run T r0 calls st).2 !! id = Some s.
Proof.
  revert st. induction calls as [|c cs IH]; intros st Hlast Hs Hcur; [done|].
  destruct (apply_call_frozen r0 st c id s Hlast Hs Hcur) as [Hs' Hcur'].
  apply IH; [by apply apply_call_current_is_last | done..].
Qed.

Lemma run_app r0 (cs cs' : list call) st :
  run T r0 (cs ++ cs') st = run T r0 cs' (run T r0 cs st).
Proof. unfold run. by rewrite fold_left_app. Qed.

End ChunkerSteps.

(** * Properties of the chunker beyond the claims *)

Section ChunkerProperties.

Import recorder chunker.

(** X1. Whatever the transport does and however callbacks and calls of
    [Close] follow one another, a stream that is no longer the chunker's
    current stream is never used again: no later [Send] or [CloseSend] is
    made on it.  (The current stream is another matter: [Close] does not
    clear it, so it stays in use after [Close].) *)
Theorem stream_left_behind_is_never_reused (T : Transport) (M ch : Z) (sr : float32)
    (calls calls' : list call) (id : nat) (s : ClientStream) :
  let r0 := New M ch sr in
  let st := run T r0 calls (r0, net0) in
  streams st.2 !! id = Some s ->
  currentStream st.1 <> Some id ->
  streams (run T r0 (calls ++ calls') (r0, net0)).2 !! id = Some s.
Proof.
  intros r0 st Hs Hcur. rewrite run_app. fold st.
  apply run_frozen; [|done..].
  by apply (run_current_is_last T r0 calls (r0, net0)).
Qed.

Lemma stream_left_behind_is_never_reused_witness :
  let r0 := New (2 * Second) 1 (Float32.of_int 2) in
  let b := [Float32.of_int 1; Float32.of_int 2] in
  let calls := [OnBuffer b; OnBuffer b; OnBuffer b; OnClose] in
  let calls' := [OnBuffer b; OnClose; OnBuffer b; OnBuffer b] in
  let s := {| sends := [({| Header := Some {| NumChannels := 1;
                                               SampleRate := Float32.of_int 2 |};
                            Sample := [] |}, None);
                        ({| Header := None; Sample := b |}, None);
                        ({| Header := None; Sample := b |}, None)];
              closeSends := [None] |} in
  streams (run no_failure r0 calls (r0, net0)).2 !! 0%nat = Some s /\
  currentStream (run no_failure r0 calls (r0, net0)).1 = Some 1%nat /\
  streams (run no_failure r0 (calls ++ calls') (r0, net0)).2 !! 0%nat = Some s.
Proof.
  intros r0 b calls calls' s.
  assert (streams (run no_failure r0 calls (r0, net0)).2 !! 0%nat = Some s) as Hs
    by (vm_compute; reflexivity).
  split; [exact Hs|]. split; [vm_compute; reflexivity|].
  apply (stream_left_behind_is_never_reused no_failure (2 * Second) 1 (Float32.of_int 2)
           calls calls' 0%nat s Hs).
  vm_compute. discriminate.
Defined.

(** X2. Whatever the transport does, after any run of buffers followed by
    [Close], [CloseSend] has been called exactly once on every stream the
    chunker opened. *)
Theorem every_stream_closed_once (T : Transport) (M ch : Z) (sr : float32)
    (bufs : list (list float32)) (id : nat) (s : ClientStream) :
  let r0 := New M ch sr in
  let st := feed (Process T r0) bufs (r0, net0) in
  streams (Close T st.1 st.2).2 !! id = Some s ->
  length (closeSends s) = 1%nat.
Proof.
  intros r0 st Hs.
  pose proof (feed_inv T r0 bufs (r0, net0) (chunker_inv_New M ch sr))
    as (_ & Hlast & Hc & Ho & _).
  fold st in Hlast, Hc, Ho.
  eapply (closes_current_all_closed T st.1 st.2); [done..| |exact Hs].
  by apply closeCurrentStream_closes.
Qed.

Lemma every_stream_closed_once_witness :
  let r0 := New (2 * Second) 1 (Float32.of_int 2) in
  let b := [Float32.of_int 1; Float32.of_int 2] in
  let st := feed (Process header_lost r0) [b; b; b; b] (r0, net0) in
  let s := {| sends := [(header_request r0, None); (sample_request b, None)];
              closeSends := [None] |} in
  streams (Close header_lost st.1 st.2).2 !! 1%nat = Some s /\
  length (closeSends s) = 1%nat.
Proof.
  intros r0 b st s.
  assert (streams (Close header_lost st.1 st.2).2 !! 1%nat = Some s) as Hs
    by (vm_compute; reflexivity).
  split; [exact Hs|].
  exact (every_stream_closed_once header_lost (2 * Second) 1 (Float32.of_int 2)
           [b; b; b; b] 1%nat s Hs).
Defined.

(** X3. In a run of callbacks from [New] in which [Close] has not been
    called, whatever the transport does, the frame counter is the number of
    samples handed to [Send] on the current stream since it was opened
    (delivered or not, as a 64-bit integer), and [CloseSend] has not been
    called on the current stream.  This holds only until [Close]: a call of
    [Close] in that state resets the counter to zero and makes the first
    [CloseSend] on the stream, which stays the current stream with its sends
    as they were. *)
Theorem frame_counter_counts_current_stream (T : Transport) (M ch : Z) (sr : float32)
    (bufs : list (list float32)) (id : nat) (s : ClientStream) :
  let r0 := New M ch sr in
  let st := feed (Process T r0) bufs (r0, net0) in
  currentStream st.1 = Some id -> streams st.2 !! id = Some s ->
  (currentFrames st.1 = wrap64 (samples_sent s) /\ closeSends s = []) /\
  currentStream (Close T st.1 st.2).1.2 = Some id /\
  currentFrames (Close T st.1 st.2).1.2 = 0 /\
  streams (Close T st.1 st.2).2 !! id =
    Some {| sends := sends s; closeSends := [closeSend_err T id 0] |}.
Proof.
  intros r0 st Hcur Hs.
  pose proof (feed_inv T r0 bufs (r0, net0) (chunker_inv_New M ch sr))
    as (_ & _ & Hc & _).
  destruct (Hc id s Hcur Hs) as [Hclosed Hframes]. split; [done|].
  unfold Close, closeCurrentStream. simpl. rewrite Hcur.
  unfold CloseSend. rewrite Hs, Hclosed. simpl. do 2 (split; [done|]).
  apply list_lookup_insert_eq. by eapply lookup_lt_Some.
Qed.

Lemma frame_counter_counts_current_stream_witness :
  let r0 := New (5 * Second) 1 (Float32.of_int 2) in
  let b := [Float32.of_int 1; Float32.of_int 2] in
  let st := feed (Process lossy r0) [b; b; b] (r0, net0) in
  let h := {| Header := Some {| NumChannels := 1; SampleRate := Float32.of_int 2 |};
              Sample := [] |} in
  let l := [(h, None);
            ({| Header := None; Sample := b |}, Some (ErrSend 0 1));
            ({| Header := None; Sample := b |}, None);
            ({| Header := None; Sample := b |}, Some (ErrSend 0 3))] in
  let s := {| sends := l; closeSends := [] |} in
  streams st.2 !! 0%nat = Some s /\
  (currentFrames st.1 = wrap64 (samples_sent s) /\ closeSends s = []) /\
  currentStream (Close lossy st.1 st.2).1.2 = Some 0%nat /\
  currentFrames (Close lossy st.1 st.2).1.2 = 0 /\
  streams (Close lossy st.1 st.2).2 !! 0%nat =
    Some {| sends := l; closeSends := [closeSend_err lossy 0 0] |}.
Proof.
  intros r0 b st h l s.
  assert (streams st.2 !! 0%nat = Some s) as Hs by (vm_compute; reflexivity).
  split; [exact Hs|].
  exact (frame_counter_counts_current_stream lossy (5 * Second) 1 (Float32.of_int 2)
           [b; b; b] 0%nat s eq_refl Hs).
Defined.

(** X4. Whatever the transport does, the callback calls [client.Record] at
    most once per buffer, and no stream exists that [client.Record] did not
    open: streams opened <= calls of [client.Record] <= buffers. *)
Theorem one_open_per_buffer (T : Transport) (M ch : Z) (sr : float32)
    (bufs : list (list float32)) :
  let w := (feed (Process T (New M ch sr)) bufs (New M ch sr, net0)).2 in
  (opened w <= idx w)%nat /\ (idx w <= length bufs)%nat.
Proof.
  intros w.
  pose proof (feed_inv T _ bufs _ (chunker_inv_New M ch sr)) as (_ & _ & _ & _ & _ & Hle).
  pose proof (feed_idx_bound T _ bufs _ (chunker_inv_New M ch sr)) as Hidx.
  split; [exact Hle | exact Hidx].
Qed.



(** X6. When every stream opens and every header goes through, every
    buffer is handed to [Send] exactly once and in order, even when sends of
    samples fail: a failed send neither stops the chunker nor makes it skip
    or repeat a buffer. *)
Theorem every_buffer_handed_to_Send (T : Transport) (M ch : Z) (sr : float32)
    (bufs : list (list float32)) :
  headers_reliable T ->
  attempted_payload (feed (Process T (New M ch sr)) bufs (New M ch sr, net0)).2 =
  concat bufs.
Proof.
  intros HT. by rewrite feed_attempted_payload.
Qed.

Lemma every_buffer_handed_to_Send_witness :
  headers_reliable lossy /\
  attempted_payload
    (feed (Process lossy (New (2 * Second) 1 (Float32.of_int 2)))
       [[Float32.of_int 1; Float32.of_int 2]; [Float32.of_int 3; Float32.of_int 4];
        [Float32.of_int 5; Float32.of_int 6]]
       (New (2 * Second) 1 (Float32.of_int 2), net0)).2 =
  concat [[Float32.of_int 1; Float32.of_int 2]; [Float32.of_int 3; Float32.of_int 4];
          [Float32.of_int 5; Float32.of_int 6]].
Proof.
  split; [by split|]. apply every_buffer_handed_to_Send. by split.
Defined.

(** X7. [New] does not check its arguments: when the channel count or the
    sample rate is zero, so that the divisor is zero, the duration the
    callback computes is zero for every buffer, and with [maxLength] not
    negative the chunker never rotates: whatever the transport does, one
    stream at most is ever opened. *)
Theorem zero_divisor_never_rotates (T : Transport) (M ch : Z) (sr : float32)
    (sg : bool) (bufs : list (list float32)) :
  div_of (New M ch sr) = S754_zero sg -> 0 <= M ->
  (opened (feed (Process T (New M ch sr)) bufs (New M ch sr, net0)).2 <= 1)%nat.
Proof.
  intros Hdiv HM.
  assert (forall st,
            chunker_inv (New M ch sr) st ->
            (currentStream st.1 = None /\ streams st.2 = [] \/
             currentStream st.1 = Some 0%nat /\ length (streams st.2) = 1%nat) ->
            (opened (feed (Process T (New M ch sr)) bufs st).2 <= 1)%nat) as Hgen.
  { induction bufs as [|b bs IH]; intros [r w] Hinv Hst.
    - unfold opened. simpl in *. destruct Hst as [[_ ->]|[_ ->]]; simpl; lia.
    - rewrite feed_cons.
      assert (callback_step T (New M ch sr) b (r, w) (Process T (New M ch sr) b (r, w)))
        as Hstep by (apply Process_step; by destruct Hinv as (_ & ? & _)).
      apply IH; [by eapply step_inv|].
      eapply step_zero_div; [exact Hdiv|exact HM| |exact Hst|exact Hstep].
      by destruct Hinv. }
  apply Hgen; [apply chunker_inv_New | by left].
Qed.

Lemma zero_divisor_never_rotates_witness :
  let b := [Float32.of_int 1; Float32.of_int 2] in
  (opened (feed (Process no_failure (New (1 * Second) 0 (Float32.of_int 2)))
             [b; b; b; b; b] (New (1 * Second) 0 (Float32.of_int 2), net0)).2 <= 1)%nat.
Proof.
  intros b.
  apply (zero_divisor_never_rotates no_failure (1 * Second) 0 (Float32.of_int 2) false).
  - vm_compute. reflexivity.
  - vm_compute. discriminate.
Defined.

(** X8. When a rotation cannot open the stream, the buffer is dropped
    (nothing is sent for it), the chunker holds no stream, and the next
    buffer calls [client.Record] again. *)
Theorem open_failure_retries_rotation (T : Transport) (r0 : R) (buf buf' : list float32)
    (r : R) (w : Net) (e : error) :
  currentStream r = None \/ maxLength r < projected (div_of r0) r (Z.of_nat (length buf)) ->
  record_err T (idx w) = Some e ->
  let st := Process T r0 buf (r, w) in
  currentStream st.1 = None /\
  sends <$> streams st.2 = sends <$> streams w /\
  idx (Process T r0 buf' st).2 = S (S (idx w)).
Proof.
  intros Hrot He st.
  destruct (Process_open_failure T r0 buf r w e Hrot He) as (Hn & Hi & Hs).
  fold st in Hn, Hi, Hs. split; [done|]. split; [done|].
  destruct st as [r1 w1]. simpl in Hn, Hi.
  rewrite Process_rotation_idx by (by left). by rewrite Hi.
Qed.

Lemma open_failure_retries_rotation_witness :
  let r0 := New (2 * Second) 1 (Float32.of_int 2) in
  let b := [Float32.of_int 1; Float32.of_int 2] in
  let st := Process open_refused r0 b (r0, net0) in
  currentStream st.1 = None /\
  sends <$> streams st.2 = sends <$> streams net0 /\
  idx (Process open_refused r0 b st).2 = 2%nat.
Proof.
  intros r0 b st.
  exact (open_failure_retries_rotation open_refused r0 b b r0 net0 (ErrRecord 0)
           (or_introl eq_refl) eq_refl).
Defined.

End ChunkerProperties.

(** * More about the server *)

Section ServerSteps.

Import server sessions.

Variable L : Sndfile.

(** Once the file is there, the loop looks at the samples only. *)
Lemma Record_loop_Some_samples f msgs msgs' s d :
  Sample <$> msgs = Sample <$> msgs' ->
  Record_loop L (Some f) msgs s d = Record_loop L (Some f) msgs' s d.
Proof.
  revert msgs' d. induction msgs as [|m rest IH]; intros [|m' rest'] d Heq;
    try done.
  rewrite !fmap_cons in Heq. injection Heq as Hm Hrest.
  cbn [Record_loop]. unfold GetSample. rewrite Hm.
  destruct (0 <? length (Sample m'))%nat; [|by apply IH].
  destruct (WriteFrames L f (Sample m') d) as [[e|] d']; [done|]. by apply IH.
Qed.

(** The first message with a library that opens the file: the loop goes on
    with the new file, which is the last one. *)
Lemma Record_loop_first_opened m rest s d :
  open_err L (length (opens d)) (next_name L s d) (first_info m) = None ->
  Record_loop L None (m :: rest) s d =
  Record_loop L (Some (length (files d))) (m :: rest) (bump s)
    {| opens := opens d ++ [(next_name L s d, first_info m, None)];
       files := files d ++ [ {| path := next_name L s d; info := first_info m;
                                writes := []; closes := [] |} ] |}.
Proof.
  intros He. cbn [Record_loop]. unfold newRecording, Open.
  fold (first_info m). fold (next_name L s d). by rewrite He.
Qed.

Lemma blocks_cons_nil m rest : Sample m = [] -> blocks (m :: rest) = blocks rest.
Proof.
  intros Hm. unfold blocks. rewrite fmap_cons, filter_cons, Hm.
  by rewrite decide_False by (intros H; by apply H).
Qed.

Lemma blocks_cons_block m rest :
  Sample m <> [] -> blocks (m :: rest) = Sample m :: blocks rest.
Proof.
  intros Hm. unfold blocks. rewrite fmap_cons, filter_cons.
  by rewrite decide_True by done.
Qed.

(** The loop stops at the first write that fails. *)
Lemma Record_loop_write_fails msgs s o pre x bs1 b bs2 e :
  blocks msgs = bs1 ++ b :: bs2 ->
  (forall k, (k < length bs1)%nat ->
     write_err L (length pre) (length (writes x) + k) = None) ->
  write_err L (length pre) (length (writes x) + length bs1) = Some e ->
  Record_loop L (Some (length pre)) msgs s {| opens := o; files := pre ++ [x] |} =
  (Some (length pre), Some e, s,
   {| opens := o;
      files := pre ++ [ {| path := path x; info := info x;
                           writes := writes x ++ ((fun b => (b, None)) <$> bs1) ++
                                     [(b, Some e)];
                           closes := closes x |} ] |}).
Proof.
  revert x bs1. induction msgs as [|m rest IH]; intros x bs1 Hb Hok Hfail.
  - by destruct bs1.
  - cbn [Record_loop]. unfold GetSample.
    destruct (Sample m) as [|v vs] eqn:Hm.
    + rewrite blocks_cons_nil in Hb by done. simpl (0 <? _)%nat. cbv iota.
      by apply IH.
    + rewrite blocks_cons_block in Hb by (by rewrite Hm). rewrite Hm in Hb.
      simpl (0 <? _)%nat. cbv iota. rewrite WriteFrames_last by done.
      destruct bs1 as [|b1 bs1].
      * simpl in Hb, Hfail. injection Hb as <- _. rewrite Nat.add_0_r in Hfail.
        by rewrite Hfail.
      * simpl in Hb. injection Hb as <- Hb.
        pose proof (Hok 0%nat ltac:(simpl; lia)) as H0. rewrite Nat.add_0_r in H0.
        rewrite H0.
        rewrite (IH _ bs1 Hb).
        -- simpl. by rewrite <- app_assoc.
        -- intros k Hk. simpl. rewrite length_app. simpl.
           replace (length (writes x) + 1 + k)%nat with (length (writes x) + S k)%nat
             by lia.
           apply Hok. simpl. lia.
        -- simpl. rewrite length_app. simpl.
           replace (length (writes x) + 1 + length bs1)%nat
             with (length (writes x) + S (length bs1))%nat by lia.
           exact Hfail.
Qed.


(** *** Sessions one after the other *)


End ServerSteps.

(** *** File names *)

Section FileNames.

Import server sessions.

Local Open Scope string_scope.

Lemma string_length_append (a b : string) :
  String.length (a ++ b) = (String.length a + String.length b)%nat.
Proof. induction a as [|c a IH]; simpl; [done | by rewrite IH]. Qed.

Lemma string_append_inv_head (p a b : string) : p ++ a = p ++ b -> a = b.
Proof. induction p as [|c p IH]; simpl; [done|]. intros [= H]. by apply IH. Qed.

Lemma string_append_eq_length (a1 a2 b1 b2 : string) :
  String.length a1 = String.length a2 -> a1 ++ b1 = a2 ++ b2 -> a1 = a2 /\ b1 = b2.
Proof.
  revert a2. induction a1 as [|c a1 IH]; intros [|c2 a2] Hlen Heq; simpl in *; try done.
  injection Heq as -> Heq. injection Hlen as Hlen.
  destruct (IH a2 Hlen Heq) as [-> ->]. done.
Qed.

Lemma string_append_inv_tail (a1 a2 t : string) : a1 ++ t = a2 ++ t -> a1 = a2.
Proof.
  intros Heq. apply (string_append_eq_length a1 a2 t t); [|done].
  apply (f_equal String.length) in Heq. rewrite !string_length_append in Heq. lia.
Qed.

Lemma pad0_digits (width : nat) (d : Decimal.uint) :
  (width <= 3)%nat ->
  exists d', pad0 width (NilEmpty.string_of_uint d) = NilEmpty.string_of_uint d' /\
             Pos.of_uint d' = Pos.of_uint d /\
             (width <= String.length (pad0 width (NilEmpty.string_of_uint d)))%nat.
Proof.
  intros Hw. unfold pad0.
  remember (String.length (NilEmpty.string_of_uint d)) as n eqn:Hn.
  destruct (width - n)%nat as [|[|[|k]]] eqn:Hk.
  - exists d. simpl. repeat split. lia.
  - exists (Decimal.D0 d). simpl. repeat split. lia.
  - exists (Decimal.D0 (Decimal.D0 d)). simpl. repeat split. lia.
  - exists (Decimal.D0 (Decimal.D0 (Decimal.D0 d))). simpl.
    destruct k; [|lia]. simpl. repeat split. lia.
Qed.

Lemma fmt_03d_read n : 0 <= n -> read_03d (fmt_03d n) = Some n.
Proof.
  intros Hn. destruct n as [|p|p]; [done| |lia].
  unfold fmt_03d, NilZero.string_of_uint.
  pose proof (Unsigned.to_uint_nonnil p) as Hnil.
  destruct (pad0_digits 3 (Pos.to_uint p)) as (d' & Hd' & Hof & _); [lia|].
  destruct (Pos.to_uint p) eqn:Hp; try done;
    rewrite Hd'; unfold read_03d; rewrite NilEmpty.usu; simpl option_map;
    unfold N.of_uint; rewrite Hof, <- Hp, Unsigned.of_to; done.
Qed.

Lemma fmt_03d_width n : 0 <= n -> (3 <= String.length (fmt_03d n))%nat.
Proof.
  intros Hn. destruct n as [|p|p]; [simpl; lia| |lia].
  unfold fmt_03d, NilZero.string_of_uint.
  pose proof (Unsigned.to_uint_nonnil p) as Hnil.
  destruct (pad0_digits 3 (Pos.to_uint p)) as (_ & _ & _ & Hlen); [lia|].
  by destruct (Pos.to_uint p).
Qed.

Lemma file_name_inj p ts1 ts2 n1 n2 :
  String.length ts1 = String.length ts2 -> 0 <= n1 -> 0 <= n2 ->
  file_name p ts1 n1 = file_name p ts2 n2 -> ts1 = ts2 /\ n1 = n2.
Proof.
  intros Hlen H1 H2 Heq. unfold file_name in Heq.
  apply string_append_inv_head in Heq. simpl in Heq. injection Heq as Heq.
  apply string_append_eq_length in Heq as [-> Heq]; [|done]. split; [done|].
  simpl in Heq. injection Heq as Heq. apply string_append_inv_tail in Heq.
  apply (f_equal read_03d) in Heq. rewrite !fmt_03d_read in Heq by done.
  by injection Heq.
Qed.

End FileNames.

(** * Properties of the server beyond the claims *)

Section ServerProperties.

Import server sessions.

(** X9. [Record] reads the header of the first message only: two streams
    that start with the same message and carry the same samples afterwards
    have the same outcome, whatever headers the later messages carry, so a
    later header that differs from the first is neither rejected nor used. *)
Theorem later_headers_ignored (L : Sndfile) (m : RecordRequest)
    (rest rest' : list RecordRequest) (s : t) (d : Disk) :
  Sample <$> rest = Sample <$> rest' ->
  Record L (m :: rest) s d = Record L (m :: rest') s d.
Proof.
  intros Heq. unfold Record. cbn [Record_loop].
  destruct (newRecording L _ _ s d) as [[[out err] s1] d1].
  destruct err as [e|]; [done|]. destruct out as [f|]; [|done].
  destruct (0 <? length (GetSample m))%nat.
  - destruct (WriteFrames L f (GetSample m) d1) as [[e|] d2]; [done|].
    by rewrite (Record_loop_Some_samples L f rest rest').
  - by rewrite (Record_loop_Some_samples L f rest rest').
Qed.

Lemma later_headers_ignored_witness :
  let m := {| Header := Some {| NumChannels := 1; SampleRate := Float32.of_int 11025 |};
              Sample := [] |} in
  let m1 := {| Header := None; Sample := [Float32.of_int 1] |} in
  let m2 := {| Header := Some {| NumChannels := 2; SampleRate := Float32.of_int 44100 |};
               Sample := [Float32.of_int 1] |} in
  Record no_failure [m; m1] server0 disk0 = Record no_failure [m; m2] server0 disk0.
Proof.
  intros m m1 m2. exact (later_headers_ignored no_failure m [m1] [m2] server0 disk0 eq_refl).
Defined.

Lemma filter_written (bs : list (list float32)) :
  filter (fun c : list float32 * option error => c.2 = None) ((fun b => (b, None)) <$> bs) =
  (fun b => (b, None)) <$> bs.
Proof.
  induction bs as [|b bs IH]; [done|].
  rewrite fmap_cons, filter_cons_True by done. by rewrite IH.
Qed.

(** X10. When the file was opened and a write fails, [Record] stops there
    and returns the error of that write: the blocks before it are in the
    file, the messages after it are not looked at, and the file is still
    closed, once. *)
Theorem Record_stops_at_failed_write (L : Sndfile) (m : RecordRequest)
    (rest : list RecordRequest) (s : t) (d : Disk)
    (bs1 : list (list float32)) (b : list float32) (bs2 : list (list float32))
    (e : error) :
  open_err L (length (opens d)) (next_name L s d) (first_info m) = None ->
  blocks (m :: rest) = bs1 ++ b :: bs2 ->
  (forall k, (k < length bs1)%nat -> write_err L (length (files d)) k = None) ->
  write_err L (length (files d)) (length bs1) = Some e ->
  exists x,
    Record L (m :: rest) s d =
      (Some e, bump s,
       {| opens := opens d ++ [(next_name L s d, first_info m, None)];
          files := files d ++ [x] |}) /\
    (writes x).*1 = bs1 ++ [b] /\
    frames x = concat bs1 /\
    closes x = [close_err L (length (files d)) 0].
Proof.
  intros Ho Hb Hok Hfail. unfold Record.
  rewrite Record_loop_first_opened by done.
  rewrite (Record_loop_write_fails L (m :: rest) _ _ (files d) _ bs1 b bs2 e Hb)
    by done.
  rewrite FileClose_last by done. simpl.
  eexists. split; [reflexivity|]. simpl. repeat split.
  - rewrite fmap_app, <- list_fmap_compose. simpl. f_equal. apply list_fmap_id.
  - unfold frames. simpl. rewrite list.filter_app, filter_written.
    rewrite filter_cons_False by done. rewrite filter_nil, app_nil_r.
    rewrite <- list_fmap_compose. f_equal. apply list_fmap_id.
Qed.

Lemma Record_stops_at_failed_write_witness :
  let L := {| open_err := fun _ _ _ => None;
              write_err := fun _ k => match k with 1%nat => Some (ErrWriteFrames 0 1)
                                                | _ => None end;
              close_err := fun _ _ => None;
              timestamp := fun _ => "2019-03-01-12-00-00"%string |} in
  let m := {| Header := Some {| NumChannels := 1; SampleRate := Float32.of_int 11025 |};
              Sample := [] |} in
  let m1 := {| Header := None; Sample := [Float32.of_int 1] |} in
  let m2 := {| Header := None; Sample := [Float32.of_int 2] |} in
  let m3 := {| Header := None; Sample := [Float32.of_int 3] |} in
  exists x,
    Record L [m; m1; m2; m3] server0 disk0 =
      (Some (ErrWriteFrames 0 1), bump server0,
       {| opens := opens disk0 ++ [(next_name L server0 disk0, first_info m, None)];
          files := files disk0 ++ [x] |}) /\
    (writes x).*1 = [[Float32.of_int 1]] ++ [[Float32.of_int 2]] /\
    frames x = concat [[Float32.of_int 1]] /\
    closes x = [None].
Proof.
  intros L m m1 m2 m3.
  apply (Record_stops_at_failed_write L m [m1; m2; m3] server0 disk0
           [[Float32.of_int 1]] [Float32.of_int 2] [[Float32.of_int 3]]
           (ErrWriteFrames 0 1)).
  - reflexivity.
  - reflexivity.
  - intros [|k] Hk; [reflexivity | simpl in Hk; lia].
  - reflexivity.
Defined.

(** X11. A session leaves the files of other sessions alone and creates one
    file at most: [Record] only adds to the list of files, it adds none when
    no message is received and one at most otherwise, and it calls
    [sndfile.Open] once exactly when a message is received. *)
Theorem Record_touches_only_its_file (L : Sndfile) (msgs : list RecordRequest)
    (s : t) (d : Disk) :
  exists new,
    files (Record L msgs s d).2 = files d ++ new /\
    (length new <= Nat.min 1 (length msgs))%nat /\
    length (opens (Record L msgs s d).2) = (length (opens d) + Nat.min 1 (length msgs))%nat.
Proof.
  destruct msgs as [|m rest].
  - exists []. simpl. rewrite app_nil_r. repeat split; lia.
  - destruct (open_err L (length (opens d)) (next_name L s d) (first_info m))
      as [e|] eqn:He.
    + exists []. rewrite (Record_first_refused L m rest s d e He). simpl.
      rewrite app_nil_r, length_app. simpl. repeat split; lia.
    + destruct (Record_first_opened L m rest s d He) as (err & x & HR & _).
      exists [x]. rewrite HR. simpl. rewrite length_app. simpl. repeat split; lia.
Qed.

(** X12. [%03d] as the file names use it: what it prints for a number that
    is not negative has three characters at least and reads back as that
    number, so different sequence numbers print differently. *)
Theorem fmt_03d_round_trip (n : Z) :
  0 <= n ->
  read_03d (fmt_03d n) = Some n /\ (3 <= String.length (fmt_03d n))%nat.
Proof.
  intros Hn. split; [by apply fmt_03d_read | by apply fmt_03d_width].
Qed.

Lemma fmt_03d_round_trip_witness :
  read_03d (fmt_03d 1234) = Some 1234 /\ (3 <= String.length (fmt_03d 1234))%nat.
Proof.
  apply (fmt_03d_round_trip 1234). lia.
Defined.

(** X13. With time stamps of one length (as the layout
    "2006-01-02-15-04-05" gives), a counter that starts at zero or above and
    does not overflow, the names that a run of calls of [newRecording] gives
    to [sndfile.Open] are pairwise distinct, also within one second and
    whether or not the opens succeed. *)
Theorem generated_names_distinct (L : Sndfile) (calls : list (Z * Z)) (s : t) (d : Disk) :
  (forall n n', String.length (timestamp L n) = String.length (timestamp L n')) ->
  0 <= numClients s ->
  numClients s + Z.of_nat (length calls) <= max_int64 ->
  exists names,
    opened_names (newRecordings L calls s d).2 = opened_names d ++ names /\
    length names = length calls /\
    NoDup names.
Proof.
  intros Hts H0 Hmax.
  destruct (newRecordings_names L calls s d) as (_ & Ho & _);
    [unfold min_int64; lia | done |].
  exists (nth_name L s d <$> seq 0 (length calls)). split; [done|].
  split; [by rewrite length_fmap, length_seq|].
  apply NoDup_fmap_2_strong; [|apply NoDup_seq].
  intros x y _ _ Heq. unfold nth_name in Heq.
  apply file_name_inj in Heq as [_ Heq]; unfold seq_number in *; try lia.
  apply Hts.
Qed.

Lemma generated_names_distinct_witness :
  let L := {| open_err := fun n _ _ => match n with 1%nat => Some (ErrOpen 1) | _ => None end;
              write_err := fun _ _ => None;
              close_err := fun _ _ => None;
              timestamp := fun _ => "2019-03-01-12-00-00"%string |} in
  let calls := [(1, 11025); (1, 11025); (2, 44100)] in
  exists names,
    opened_names (newRecordings L calls server0 disk0).2 = opened_names disk0 ++ names /\
    length names = length calls /\
    NoDup names.
Proof.
  intros L calls.
  apply (generated_names_distinct L calls server0 disk0).
  - intros n n'. reflexivity.
  - vm_compute. discriminate.
  - vm_compute. discriminate.
Defined.

End ServerProperties.

(** * From the capture buffers to the files *)

Section EndToEnd.

Import recorder sessions.








End EndToEnd.

(** * The capture device and the client before chunking *)

Section DeviceProperties.

Import client.

Variable DeviceInfo : Type.
Variable Name : DeviceInfo -> string.

Lemma getInputDevice_loop_result input devs :
  match getInputDevice_loop DeviceInfo Name input devs with
  | inl dev =>
      input <> EmptyString /\
      exists pre post, devs = pre ++ dev :: post /\
        Forall (fun x => Contains (Name x) input = false) pre /\
        Contains (Name dev) input = true
  | inr e =>
      e = ErrNoInputDevice /\
      (input = EmptyString \/ Forall (fun x => Contains (Name x) input = false) devs)
  end.
Proof.
  induction devs as [|dev rest IH]; simpl.
  - split; [done|]. right. constructor.
  - destruct (String.eqb_spec input EmptyString) as [->|Hne]; simpl.
    + destruct (getInputDevice_loop _ _ _ rest) as [x|e]; [by destruct IH|].
      destruct IH as [-> _]. split; [done | by left].
    + destruct (Contains (Name dev) input) eqn:Hc.
      * split; [done|]. exists [], rest. repeat split; [constructor | done].
      * destruct (getInputDevice_loop _ _ _ rest) as [x|e].
        -- destruct IH as (_ & pre & post & -> & Hpre & Hx). split; [done|].
           exists (dev :: pre), post. repeat split; [by constructor | done].
        -- destruct IH as [-> [He|Hall]]; [done|]. split; [done|].
           right. by constructor.
Qed.

End DeviceProperties.

Section DeviceClaims.

Import client.

(** X15. With the match string empty, which is the default of the [-input]
    flag, [getInputDevice] selects no device, whatever devices there are: it
    returns "no input device found". *)
Theorem getInputDevice_empty_input (DeviceInfo : Type) (Name : DeviceInfo -> string)
    (devs : list DeviceInfo) :
  getInputDevice DeviceInfo Name EmptyString (inl devs) = inr ErrNoInputDevice.
Proof.
  simpl. induction devs as [|dev rest IH]; [done|]. simpl. exact IH.
Qed.

(** X16. [getInputDevice] returns the first device, in the order the
    library lists them, whose name contains the match string: a device with
    no match before it and a match itself is the one returned. *)
Theorem getInputDevice_first_match (DeviceInfo : Type) (Name : DeviceInfo -> string)
    (input : string) (pre post : list DeviceInfo) (dev : DeviceInfo) :
  input <> EmptyString ->
  Forall (fun x => Contains (Name x) input = false) pre ->
  Contains (Name dev) input = true ->
  getInputDevice DeviceInfo Name input (inl (pre ++ dev :: post)) = inl dev.
Proof.
  intros Hne Hpre Hdev. simpl.
  apply String.eqb_neq in Hne.
  induction Hpre as [|x pre Hx Hpre IH]; simpl.
  - by rewrite Hne, Hdev.
  - by rewrite Hne, Hx.
Qed.

Lemma getInputDevice_first_match_witness :
  getInputDevice string (fun x => x) "USB"%string
    (inl (["Built-in Microphone"%string; "HDMI"%string] ++
          "USB Audio"%string :: ["USB Webcam"%string])) =
  inl "USB Audio"%string.
Proof.
  apply (getInputDevice_first_match string (fun x => x) "USB"%string).
  - discriminate.
  - repeat constructor.
  - reflexivity.
Defined.

(** X17. What [getInputDevice] returns is right: a device it returns has a
    name that contains the match string, which is not empty, and no device
    listed before it does; when it returns an error although the devices
    could be listed, the error is "no input device found" and the match
    string is empty or no device name contains it; an error of
    [portaudio.Devices] is returned as it is. *)
Theorem getInputDevice_result (DeviceInfo : Type) (Name : DeviceInfo -> string)
    (input : string) (devices : list DeviceInfo + nat) :
  match devices, getInputDevice DeviceInfo Name input devices with
  | inl devs, inl dev =>
      input <> EmptyString /\
      exists pre post, devs = pre ++ dev :: post /\
        Forall (fun x => Contains (Name x) input = false) pre /\
        Contains (Name dev) input = true
  | inl devs, inr e =>
      e = ErrNoInputDevice /\
      (input = EmptyString \/ Forall (fun x => Contains (Name x) input = false) devs)
  | inr code, res => res = inr (ErrDevices code)
  end.
Proof.
  destruct devices as [devs|code]; [|done]. simpl.
  exact (getInputDevice_loop_result DeviceInfo Name input devs).
Qed.

End DeviceClaims.

Section OldClient.

Import recorder oldclient.



End OldClient.
